(** * Route planner (projekt2.cpp): graph loader, Dijkstra engine,
    route reconstruction and the query loop of [main].

    The C++ containers are modelled by what they are observably:
    - [std::set<T>] is a strictly increasing list, [insert] is ordered
      insertion that drops an element already present;
    - [std::map<std::string, V>] is an association list kept in key order,
      [operator[]] default-constructs the missing entry, [at] raises
      [std::out_of_range], [count] is a lookup;
    - [int] is a 32-bit two's complement integer carried in [Z]; the one
      arithmetic operation of the program, the addition of line 114, is
      written with its wrap-around;
    - [std::string] comparison is the lexicographic comparison of bytes.

    Loops that the program runs without a static bound take a [fuel]
    argument; termination theorems give the fuel that is enough. *)

From Stdlib Require Import ZArith List String Ascii Bool Lia.
From Stdlib Require Import Permutation Sorted OrderedTypeEx DecimalString DecimalPos.
Import ListNotations.

Local Open Scope string_scope.
Local Open Scope Z_scope.

(* ================================================================== *)
(** ** Machine integers *)

Definition INT_MAX : Z := 2147483647.
Definition INT_MIN : Z := -2147483648.

(** Two's complement reduction to 32 bits. *)
Definition wrap (z : Z) : Z := (z + 2147483648) mod 4294967296 - 2147483648.

(** [int + int] of line 114.  C++ leaves the overflow of this addition
    undefined; it is taken here as the usual targets compute it, modulo
    [2^32].  Every theorem that relies on the sum being the exact one says so
    in its hypotheses. *)
Definition int_add (a b : Z) : Z := wrap (a + b).

(** [size_t] subtraction, as in [path.size() - 1] of line 155: a difference
    below zero wraps around to the top of the 64-bit range.  The operands are
    sizes of vectors, for which this is subtraction modulo [2^64]. *)
Definition size_t_sub (a b : Z) : Z :=
  if a <? b then a - b + 18446744073709551616 else a - b.

(* ================================================================== *)
(** ** Ordered containers *)

Section OrderedSet.
Context {A : Type}.
Variable cmp : A -> A -> comparison.

(** [std::set::insert]. *)
Fixpoint set_insert (x : A) (s : list A) : list A :=
  match s with
  | [] => [x]
  | y :: s' =>
      match cmp x y with
      | Lt => x :: s
      | Eq => s
      | Gt => y :: set_insert x s'
      end
  end.

Definition lt_of (x y : A) : Prop := cmp x y = Lt.

(** The representation invariant of a set: strictly increasing. *)
Definition sorted (s : list A) : Prop := StronglySorted lt_of s.

End OrderedSet.

Section OrderedMap.
Context {V : Type}.

(** [std::map::find] / [count] / [at], as a lookup. *)
Fixpoint map_find (k : string) (m : list (string * V)) : option V :=
  match m with
  | [] => None
  | (k', v) :: m' => if String.eqb k k' then Some v else map_find k m'
  end.

(** Store [v] under [k]: the entry is replaced when the key exists and is
    created at its place in key order when it does not. *)
Fixpoint map_set (k : string) (v : V) (m : list (string * V))
  : list (string * V) :=
  match m with
  | [] => [(k, v)]
  | (k', v') :: m' =>
      match String.compare k k' with
      | Lt => (k, v) :: m
      | Eq => (k, v) :: m'
      | Gt => (k', v') :: map_set k v m'
      end
  end.

Definition map_count (k : string) (m : list (string * V)) : Z :=
  match map_find k m with Some _ => 1 | None => 0 end.

(** [m[k]]: the value found, or the default [d] which is then also stored. *)
Definition map_index (d : V) (k : string) (m : list (string * V))
  : V * list (string * V) :=
  match map_find k m with
  | Some v => (v, m)
  | None => (d, map_set k d m)
  end.
End OrderedMap.

(** Order of [std::pair<std::string,int>], the element type of an edge set. *)
Definition edge_cmp (a b : string * Z) : comparison :=
  match String.compare (fst a) (fst b) with
  | Eq => Z.compare (snd a) (snd b)
  | c => c
  end.

(** Order of [std::pair<int,std::string>], the element type of the queue. *)
Definition queue_cmp (a b : Z * string) : comparison :=
  match Z.compare (fst a) (fst b) with
  | Eq => String.compare (snd a) (snd b)
  | c => c
  end.

(** [typedef std::map<std::string, std::set<std::pair<std::string,int>>> Graph] *)
Definition Graph : Type := list (string * list (string * Z)).

(** [std::map<std::string, std::pair<int,std::string>>] *)
Definition Paths : Type := list (string * (Z * string)).

Definition Queue : Type := list (Z * string).

(* ================================================================== *)
(** ** Reading a line with [operator>>] *)

(** [std::isspace] in the "C" locale. *)
Definition isspace (c : ascii) : bool :=
  let n := nat_of_ascii c in
  (Nat.eqb n 32 || (Nat.leb 9 n && Nat.leb n 13))%bool.

Fixpoint skipws (s : string) : string :=
  match s with
  | EmptyString => EmptyString
  | String c s' => if isspace c then skipws s' else s
  end.

Fixpoint take_word (s : string) : string * string :=
  match s with
  | EmptyString => (EmptyString, EmptyString)
  | String c s' =>
      if isspace c then (EmptyString, s)
      else let (w, r) := take_word s' in (String c w, r)
  end.

(** [ss >> word]: skips white space, takes the characters up to the next
    white space; fails when none is left. *)
Definition read_word (s : string) : option (string * string) :=
  match take_word (skipws s) with
  | (EmptyString, _) => None
  | (w, r) => Some (w, r)
  end.

Definition digit_of (c : ascii) : option Z :=
  let n := Z.of_nat (nat_of_ascii c) in
  if ((48 <=? n) && (n <=? 57))%bool then Some (n - 48) else None.

Fixpoint take_digits (s : string) (acc : Z) : Z * string :=
  match s with
  | EmptyString => (acc, EmptyString)
  | String c s' =>
      match digit_of c with
      | Some d => take_digits s' (10 * acc + d)
      | None => (acc, s)
      end
  end.

Definition starts_with_digit (s : string) : bool :=
  match s with
  | String c _ => match digit_of c with Some _ => true | None => false end
  | EmptyString => false
  end.

(** [ss >> distance] for an [int]: white space is skipped, then an optional
    sign and the longest run of decimal digits are taken; the extraction
    fails when there is no digit, and also when the value does not fit an
    [int] (the fail bit is set and line 38 skips the line). *)
Definition read_int (s : string) : option (Z * string) :=
  let s1 := skipws s in
  let '(neg, s2) :=
    match s1 with
    | String "-"%char r => (true, r)
    | String "+"%char r => (false, r)
    | _ => (false, s1)
    end in
  if starts_with_digit s2 then
    let (n, rest) := take_digits s2 0 in
    let v := if neg then - n else n in
    if ((INT_MIN <=? v) && (v <=? INT_MAX))%bool then Some (v, rest) else None
  else None.

(* ================================================================== *)
(** ** loadFromFile (lines 23-47) *)

(** The three extractions of lines 32-40. *)
Definition parse_edge (line : string) : option (string * string * Z) :=
  match read_word line with
  | None => None
  | Some (source, r1) =>
      match read_word r1 with
      | None => None
      | Some (destination, r2) =>
          match read_int r2 with
          | None => None
          | Some (distance, _) => Some (source, destination, distance)
          end
      end
  end.

(** Lines 41-42: [graph[source].insert({destination, distance});
    graph[destination];] *)
Definition add_edge (graph : Graph) (source destination : string)
  (distance : Z) : Graph :=
  let '(edges, graph1) := map_index [] source graph in
  let graph2 :=
    map_set source (set_insert edge_cmp (destination, distance) edges) graph1 in
  snd (map_index [] destination graph2).

Definition load_line (graph : Graph) (line : string) : Graph :=
  match parse_edge line with
  | None => graph
  | Some (source, destination, distance) =>
      add_edge graph source destination distance
  end.

(** The file is given as the list of its lines, in order. *)
Definition loadFromFile (lines : list string) : Graph :=
  fold_left load_line lines [].

(* ================================================================== *)
(** ** Dijkstra (lines 93-129) *)

Definition unreached : Z * string := (INT_MAX, "").

(** Lines 96-103. *)
Definition init_paths (graph : Graph) (start : string) : Paths :=
  fold_left
    (fun (paths : Paths) (node : string * list (string * Z)) =>
       if String.eqb (fst node) start
       then map_set (fst node) (0, "") paths
       else map_set (fst node) unreached paths)
    graph [].

(** Lines 113-121: the loop over the edges of [current]. *)
Fixpoint relax (current : string) (edges : list (string * Z))
  (paths : Paths) (queue : Queue) : Paths * Queue :=
  match edges with
  | [] => (paths, queue)
  | neighbor :: edges' =>
      let '(rc, paths1) := map_index (0, "") current paths in
      let newDistance := int_add (fst rc) (snd neighbor) in
      let '(rn, paths2) := map_index (0, "") (fst neighbor) paths1 in
      if newDistance <? fst rn then
        relax current edges'
          (map_set (fst neighbor) (newDistance, current) paths2)
          (set_insert queue_cmp (newDistance, fst neighbor) queue)
      else relax current edges' paths2 queue
  end.

(** Lines 108-126: the loop on the queue. *)
Fixpoint Dijkstra_loop (fuel : nat) (graph : Graph) (paths : Paths)
  (queue : Queue) : option Paths :=
  match queue with
  | [] => Some paths
  | (_, current) :: queue' =>
      match fuel with
      | O => None
      | S fuel' =>
          match map_find current graph with
          | Some edges =>
              let '(paths', queue'') := relax current edges paths queue' in
              Dijkstra_loop fuel' graph paths' queue''
          | None => Some paths
          end
      end
  end.

Definition Dijkstra (fuel : nat) (graph : Graph) (start end_ : string)
  : option Paths :=
  Dijkstra_loop fuel graph (init_paths graph start)
    (set_insert queue_cmp (0, start) []).

(* ================================================================== *)
(** ** createResultsMessage (lines 141-172) *)

(** What can stop a run other than its normal end: an exception of [at],
    or an index past the end of a vector. *)
Inductive failure : Type :=
| OutOfRange
| OutOfBounds.

Inductive res (A : Type) : Type :=
| Ret (a : A)
| Raise (e : failure)
| OutOfFuel.

Arguments Ret {A} a.
Arguments Raise {A} e.
Arguments OutOfFuel {A}.

Definition bind {A B : Type} (m : res A) (k : A -> res B) : res B :=
  match m with
  | Ret a => k a
  | Raise e => Raise e
  | OutOfFuel => OutOfFuel
  end.

Notation "x <- m ;; k" := (bind m (fun x => k))
  (at level 61, m at next level, right associativity).

Definition leg : Type := string * string * Z.

(** Lines 148-151: follow the predecessors from [current]. *)
Fixpoint walk_back (fuel : nat) (paths : Paths) (current : string)
  (path : list string) : res (list string) :=
  match current with
  | EmptyString => Ret path
  | _ =>
      match fuel with
      | O => OutOfFuel
      | S fuel' =>
          match map_find current paths with
          | None => Raise OutOfRange
          | Some r => walk_back fuel' paths (snd r) (path ++ [current])%list
          end
      end
  end.

(** Lines 158-165: the weight of the first edge to [nextCity], 0 if none. *)
Fixpoint first_match (nextCity : string) (edges : list (string * Z)) : Z :=
  match edges with
  | [] => 0
  | neighbor :: edges' =>
      if String.eqb (fst neighbor) nextCity then snd neighbor
      else first_match nextCity edges'
  end.

(** Lines 155-167, from index [i] on. *)
Fixpoint legs_loop (fuel : nat) (graph : Graph) (path : list string) (i : Z)
  : res (list leg) :=
  if i <? size_t_sub (Z.of_nat (List.length path)) 1 then
    match fuel with
    | O => OutOfFuel
    | S fuel' =>
        match nth_error path (Z.to_nat i), nth_error path (Z.to_nat (i + 1)) with
        | Some currentCity, Some nextCity =>
            match map_find currentCity graph with
            | None => Raise OutOfRange
            | Some edges =>
                rest <- legs_loop fuel' graph path (i + 1) ;;
                Ret ((currentCity, nextCity, first_match nextCity edges) :: rest)
            end
        | _, _ => Raise OutOfBounds
        end
    end
  else Ret [].

(** The legs of the route to [end_]: lines 145-167 without the printing. *)
Definition route_legs (fuel : nat) (graph : Graph) (paths : Paths)
  (end_ : string) : res (list leg) :=
  path <- walk_back fuel paths end_ [] ;;
  legs_loop fuel graph (rev path) 0.

Definition endl : string := String (ascii_of_nat 10) EmptyString.

(** [operator<<] for an [int]. *)
Definition int_to_string (z : Z) : string := NilZero.string_of_int (Z.to_int z).

Definition leg_line (l : leg) : string :=
  let '(currentCity, nextCity, distance) := l in
  currentCity ++ " --> " ++ nextCity ++ " " ++ int_to_string distance
    ++ " km" ++ endl.

Definition resolved_message (start end_ : string) (totalDistance : Z)
  (legs : list leg) : string :=
  "Trasa: " ++ start ++ " --> " ++ end_ ++ " (" ++ int_to_string totalDistance
    ++ " km):" ++ endl ++ String.concat "" (map leg_line legs) ++ endl.

Definition createResultsMessage (fuel : nat) (start end_ : string)
  (totalDistance : Z) (graph : Graph) (paths : Paths) : res string :=
  legs <- route_legs fuel graph paths end_ ;;
  Ret (resolved_message start end_ totalDistance legs).

(* ================================================================== *)
(** ** The query loop of main (lines 218-245) *)

Definition no_information_message (start end_ : string) : string :=
  "Trasa: " ++ start ++ " --> " ++ end_ ++ " (Brak informacji o polaczeniu)"
    ++ endl ++ endl.

Definition impossible_message (start end_ : string) : string :=
  "Trasa: " ++ start ++ " --> " ++ end_ ++ " (Trasa niemozliwa do wyznaczenia)"
    ++ endl ++ endl.

(** What a run of the loop does that can be seen from outside: the calls of
    the engine and the messages appended to the result file. *)
Inductive event : Type :=
| CallDijkstra (start end_ : string)
| SaveResults (message : string).

(** Lines 230-241 for one query. *)
Definition process_query (fuel : nat) (graph : Graph) (start end_ : string)
  : list event * res unit :=
  match Dijkstra fuel graph start end_ with
  | None => ([CallDijkstra start end_], OutOfFuel)
  | Some paths =>
      if ((map_count start graph =? 0) || (map_count end_ graph =? 0))%bool
      then ([CallDijkstra start end_;
             SaveResults (no_information_message start end_)], Ret tt)
      else
        let '(r, paths1) := map_index (0, "") end_ paths in
        if (negb (fst r =? INT_MAX) && (map_count end_ paths1 >? 0))%bool
        then
          let '(r', paths2) := map_index (0, "") end_ paths1 in
          match createResultsMessage fuel start end_ (fst r') graph paths2 with
          | Ret message =>
              ([CallDijkstra start end_; SaveResults message], Ret tt)
          | Raise e => ([CallDijkstra start end_], Raise e)
          | OutOfFuel => ([CallDijkstra start end_], OutOfFuel)
          end
        else ([CallDijkstra start end_;
               SaveResults (impossible_message start end_)], Ret tt)
  end.

(** Lines 221-228. *)
Definition parse_query (line : string) : option (string * string) :=
  match read_word line with
  | None => None
  | Some (start, r1) =>
      match read_word r1 with
      | None => None
      | Some (end_, _) => Some (start, end_)
      end
  end.

Fixpoint main_loop (fuel : nat) (graph : Graph) (lines : list string)
  : list event * res unit :=
  match lines with
  | [] => ([], Ret tt)
  | line :: lines' =>
      match parse_query line with
      | None => main_loop fuel graph lines'
      | Some (start, end_) =>
          match process_query fuel graph start end_ with
          | (events, Ret _) =>
              let '(events', r) := main_loop fuel graph lines' in
              ((events ++ events')%list, r)
          | (events, r) => (events, r)
          end
      end
  end.

(** [main] once the three files are open: the road file and the route file
    are given by their lines.  The lines of the route file are those that
    [std::getline] delivers on line 220 during the run; they are the lines
    the file has when the loop starts as long as the run does not write to
    it, that is, unless the route file is "result.txt" (see
    [main_on_files]). *)
Definition main (fuel : nat) (roads routes : list string)
  : list event * res unit :=
  main_loop fuel (loadFromFile roads) routes.

(* ================================================================== *)
(** ** Properties of graphs and routes used in the statements *)

(** There is an edge from [u] to [v] of weight [w]. *)
Definition edge (g : Graph) (u v : string) (w : Z) : Prop :=
  exists edges, map_find u g = Some edges /\ In (v, w) edges.

(** Every destination of an edge is a key of the graph. *)
Definition dest_closed (g : Graph) : Prop :=
  forall u v w, edge g u v w -> map_find v g <> None.

(** The edge sets are in the order of [std::set]. *)
Definition edges_sorted (g : Graph) : Prop :=
  forall u edges, map_find u g = Some edges -> sorted edge_cmp edges.

(** What [loadFromFile] guarantees of its result: destinations are keys,
    edge sets are ordered, and no key is the empty string (a word read by
    [operator>>] has at least one character). *)
Record graph_ok (g : Graph) : Prop := {
  ok_closed : dest_closed g;
  ok_sorted : edges_sorted g;
  ok_named : map_find "" g = None
}.

(** All weights of the graph are non-negative. *)
Definition nonneg_weights (g : Graph) : Prop :=
  forall u v w, edge g u v w -> 0 <= w.

(** [walk g s t L]: a directed path leads from [s] to [t] along edges of [g]
    whose weights sum to [L]. *)
Inductive walk (g : Graph) (s : string) : string -> Z -> Prop :=
| walk_start : walk g s s 0
| walk_step u v w L : walk g s u L -> edge g u v w -> walk g s v (L + w).

(** [d] is the minimum, over all directed paths from [s] to [t], of the sum
    of the weights. *)
Definition shortest (g : Graph) (s t : string) (d : Z) : Prop :=
  walk g s t d /\ forall L, walk g s t L -> d <= L.

(** No candidate distance of a run from [s] overflows: a minimum distance
    extended by one more edge does not exceed [INT_MAX]. *)
Definition no_overflow (g : Graph) (s : string) : Prop :=
  forall u d v w, shortest g s u d -> edge g u v w -> d + w <= INT_MAX.

(** A route as a list of legs, and the sum of its leg distances. *)
Fixpoint is_route (g : Graph) (s : string) (legs : list leg) (t : string)
  : Prop :=
  match legs with
  | [] => s = t
  | (a, b, w) :: legs' => a = s /\ edge g a b w /\ is_route g b legs' t
  end.

Definition legs_total (legs : list leg) : Z :=
  fold_right (fun (l : leg) acc => snd l + acc) 0 legs.

(** The legs of lines 155-167 for a path given as the list of its nodes:
    what [legs_loop] computes, by recursion on the path. *)
Fixpoint legs_of (g : Graph) (path : list string) : res (list leg) :=
  match path with
  | currentCity :: ((nextCity :: _) as rest) =>
      match map_find currentCity g with
      | None => Raise OutOfRange
      | Some edges =>
          r <- legs_of g rest ;;
          Ret ((currentCity, nextCity, first_match nextCity edges) :: r)
      end
  | _ => Ret []
  end.

(** All edges of a graph, as triples. *)
Definition edge_list (g : Graph) : list leg :=
  flat_map (fun n => map (fun e => (fst n, fst e, snd e)) (snd n)) g.

(** *** The invariant of the engine *)

(** The predecessor links lead from [v] back to the source [s] through
    nodes of [S]. *)
Inductive rooted (s : string) (S : list string) (paths : Paths)
  : string -> Prop :=
| rooted_src : rooted s S paths s
| rooted_step v d p :
    v <> s -> map_find v paths = Some (d, p) -> In p S ->
    rooted s S paths p -> rooted s S paths v.

(** The record [(d, p)] of [v] is that of a node the run has reached: [d] is
    the length of a path from the source, and [p], when there is one, is a
    settled node with an edge to [v] that accounts for [d]. *)
Definition reached (g : Graph) (s : string) (S : list string) (paths : Paths)
  (v : string) (d : Z) (p : string) : Prop :=
  0 <= d < INT_MAX /\ walk g s v d /\
  ((v = s /\ p = "") \/
   (v <> s /\ In p S /\
    exists dp pp w, map_find p paths = Some (dp, pp) /\ edge g p v w /\ d = dp + w)).

(** [S] is the list of the nodes taken from the queue so far, [current] the
    node being expanded and [todo] its edges not yet looked at. *)
Record Inv (g : Graph) (s : string) (S : list string) (current : string)
  (todo : list (string * Z)) (paths : Paths) (queue : Queue) : Prop := {
  inv_keys : forall v, map_find v paths <> None <-> map_find v g <> None;
  inv_src : map_find s paths = Some (0, "");
  inv_rec : forall v d p, map_find v paths = Some (d, p) ->
      (d = INT_MAX /\ p = "") \/ reached g s S paths v d p;
  inv_settled : forall u, In u S ->
      exists d p, map_find u paths = Some (d, p) /\ d < INT_MAX /\
                  forall L, walk g s u L -> d <= L;
  inv_relaxed : forall u v w du pu,
      In u S -> edge g u v w -> map_find u paths = Some (du, pu) ->
      (u = current /\ In (v, w) todo) \/
      exists dv pv, map_find v paths = Some (dv, pv) /\ dv <= du + w;
  inv_queue_ge : forall k v, In (k, v) queue ->
      k < INT_MAX /\ map_find v g <> None /\
      exists d p, map_find v paths = Some (d, p) /\ d <= k;
  inv_queue_has : forall v d p, map_find v paths = Some (d, p) ->
      d < INT_MAX -> In v S \/ In (d, v) queue;
  inv_sorted : sorted queue_cmp queue;
  inv_rooted : forall u, In u S -> rooted s S paths u
}.

(** What a leg [(a, b, w)] of a route says about the records of the map: [a]
    is the predecessor recorded for [b]; [w], the weight found by the scan of
    lines 160-165, is the weight of an edge from [a] to [b] that accounts for
    the recorded distance of [b], and no edge from [a] to [b] is lighter. *)
Definition leg_committed (g : Graph) (paths : Paths) (l : leg) : Prop :=
  let '(a, b, w) := l in
  exists da pa db edges,
    map_find a paths = Some (da, pa) /\ map_find b paths = Some (db, a) /\
    map_find a g = Some edges /\ first_match b edges = w /\
    db = da + w /\ edge g a b w /\ forall w', edge g a b w' -> w <= w'.

(** *** Example inputs *)

(** The road file of the scenario: three roads between A, B and C. *)
Definition example_roads : list string := ["A B 5"; "B C 3"; "A C 10"].

Definition example_graph : Graph := loadFromFile example_roads.

(** A road as long as the largest [int], followed by one more road. *)
Definition long_roads : list string := ["A B 2147483647"; "B C 1"].

(** Two roads whose lengths add up to more than the largest [int]. *)
Definition far_roads : list string := ["A B 1073741824"; "B C 1073741824"].

(** The same two lengths on a round trip. *)
Definition round_roads : list string := ["A B 1073741824"; "B A 1073741824"].

(** Two roads from A to B of different lengths, after a long road. *)
Definition twin_roads : list string :=
  ["S A 1073741824"; "A B 5"; "A B 1073741824"].

Definition long_graph : Graph := loadFromFile long_roads.
Definition far_graph : Graph := loadFromFile far_roads.
Definition round_graph : Graph := loadFromFile round_roads.
Definition twin_graph : Graph := loadFromFile twin_roads.

(** The maps the engine returns on these graphs. *)
Definition example_paths : Paths :=
  [("A", (0, "")); ("B", (5, "A")); ("C", (8, "B"))].

Definition far_paths : Paths :=
  [("A", (0, "")); ("B", (1073741824, "A")); ("C", (-2147483648, "B"))].

Definition round_paths : Paths :=
  [("A", (-2147483648, "B")); ("B", (-1073741824, "A"))].

Definition twin_paths : Paths :=
  [("A", (1073741824, "S")); ("B", (-2147483648, "A")); ("S", (0, ""))].

(** *** The termination measure of the engine *)

(** The names a graph mentions: its keys and the destinations of its edges. *)
Definition nodes (g : Graph) : list string :=
  flat_map (fun n => fst n :: map fst (snd n)) g.

(** How far the record of [x] is above the least [int]; a name without
    record counts for more than the record [operator[]] would create. *)
Definition slot (paths : Paths) (x : string) : Z :=
  match map_find x paths with
  | Some r => Z.max 0 (fst r + 2147483648)
  | None => 2147483649
  end.

Definition potential (U : list string) (paths : Paths) : Z :=
  fold_right (fun x acc => slot paths x + acc) 0 U.

Definition measure (U : list string) (paths : Paths) (queue : Queue) : Z :=
  2 * potential U paths + Z.of_nat (List.length queue).

(** The fuel that is always enough for a run on [g] from [start]. *)
Definition enough_fuel (g : Graph) (start : string) : nat :=
  S (Z.to_nat (measure (nodes g) (init_paths g start)
                 (set_insert queue_cmp (0, start) []))).

(* ================================================================== *)
(** ** Further properties used in the statements *)

(** A word as [operator>>] delivers it: at least one character, none of them
    white space. *)
Fixpoint has_space (s : string) : bool :=
  match s with
  | EmptyString => false
  | String c s' => (isspace c || has_space s')%bool
  end.

Definition is_word (s : string) : Prop := s <> "" /\ has_space s = false.

(** The representation invariant of a [std::map]: keys strictly increasing. *)
Definition keys_sorted {V : Type} (m : list (string * V)) : Prop :=
  sorted String.compare (map fst m).

(** The edges that the lines of a road file describe. *)
Definition described (lines : list string) (s d : string) (w : Z) : Prop :=
  exists line, In line lines /\ parse_edge line = Some (s, d, w).

(** What every record of the engine's map satisfies: the distance is an
    [int], and the predecessor, when there is one, has an edge to the node. *)
Definition record_ok (g : Graph) (v : string) (r : Z * string) : Prop :=
  INT_MIN <= fst r <= INT_MAX /\
  (snd r = "" \/ exists w, edge g (snd r) v w).

Definition paths_ok (g : Graph) (paths : Paths) : Prop :=
  forall v r, map_find v paths = Some r -> record_ok g v r.

(** The map has a record for exactly the keys of the graph. *)
Definition same_keys (g : Graph) (paths : Paths) : Prop :=
  forall v, map_find v paths <> None <-> map_find v g <> None.

(** The nodes are linked by the predecessors recorded in the map: each leg
    goes from the recorded predecessor of a node to that node, a leg starts
    where the one before it ends, and the last one ends at [last]. *)
Fixpoint follows (paths : Paths) (first : string) (legs : list leg)
  (last : string) : Prop :=
  match legs with
  | [] => first = last
  | (a, b, w) :: legs' =>
      a = first /\ (exists d, map_find b paths = Some (d, a)) /\
      follows paths b legs' last
  end.

(** The list collected by the loop of lines 148-151 from [current]: each
    node is followed by its recorded predecessor, up to a node without
    one. *)
Fixpoint back_linked (paths : Paths) (current : string) (chain : list string)
  : Prop :=
  match chain with
  | [] => current = ""
  | x :: chain' =>
      x = current /\ current <> "" /\
      exists r, map_find current paths = Some r /\
                back_linked paths (snd r) chain'
  end.

(** The weight of a leg is the one the scan of lines 160-165 finds. *)
Definition leg_scanned (g : Graph) (l : leg) : Prop :=
  let '(a, b, w) := l in
  exists edges, map_find a g = Some edges /\ w = first_match b edges.

(** The queries of a route file: the lines with at least two words. *)
Fixpoint parsed_queries (lines : list string) : list (string * string) :=
  match lines with
  | [] => []
  | line :: lines' =>
      match parse_query line with
      | Some q => q :: parsed_queries lines'
      | None => parsed_queries lines'
      end
  end.

(** The events of one answered query. *)
Definition answered (qm : (string * string) * string) : list event :=
  [CallDijkstra (fst (fst qm)) (snd (fst qm)); SaveResults (snd qm)].

(** Every predecessor recorded in the map has a record of its own. *)
Definition pred_closed (paths : Paths) : Prop :=
  forall v r, map_find v paths = Some r ->
              snd r = "" \/ map_find (snd r) paths <> None.

(* ================================================================== *)
(** ** The program on a file system

    The files are a map from names to contents.  A file can be opened for
    reading when it exists; whether a name can be opened for writing is given
    by [can_write].  What the program prints on the console is left out. *)













(** A line of a road file and a line of a route file, as the program would
    print their fields. *)
Definition edge_line (s d : string) (w : Z) : string :=
  (s ++ " " ++ d ++ " " ++ int_to_string w)%string.

Definition query_line (s e : string) : string := (s ++ " " ++ e)%string.


(** The record of [v] in a run from [s] is the initial one, or its distance
    is, modulo [2^32], the length of a path from [s] that ends with the edge
    from the recorded predecessor to [v]. *)
Definition realised (g : Graph) (s v : string) (r : Z * string) : Prop :=
  r = unreached \/ (v = s /\ r = (0, "")) \/
  exists L w, walk g s (snd r) L /\ edge g (snd r) v w /\ fst r = wrap (L + w).

(** The distance [d] is, modulo [2^32], the length of a path from [s] to
    [v]. *)
Definition has_walk (g : Graph) (s v : string) (d : Z) : Prop :=
  exists L, walk g s v L /\ d = wrap L.

(** Every node of the queue that is a key of the graph has a record whose
    distance is the length of a path. *)
Definition queue_realised (g : Graph) (s : string) (paths : Paths)
  (queue : Queue) : Prop :=
  forall d v, In (d, v) queue -> map_find v g <> None ->
              exists r, map_find v paths = Some r /\ has_walk g s v (fst r).

(** The lines of a road file that spells the given edges, and the edges
    that can be spelled. *)
Definition road_lines (triples : list leg) : list string :=
  map (fun t : leg => edge_line (fst (fst t)) (snd (fst t)) (snd t)) triples.

Definition well_formed (t : leg) : Prop :=
  is_word (fst (fst t)) /\ is_word (snd (fst t)) /\ INT_MIN <= snd t <= INT_MAX.

(** A height on the nodes of the example graph that every edge climbs by at
    least its weight. *)
Definition example_height (k : string) : Z :=
  if String.eqb k "A" then 0 else if String.eqb k "B" then 5 else 10.




(** A road file with two roads of different lengths between the same two
    towns, its graph and the map of the run from A. *)
Definition parallel_roads : list string := ["A B 7"; "A B 3"; "B C 1"].

Definition parallel_graph : Graph := loadFromFile parallel_roads.

Definition parallel_paths : Paths :=
  [("A", (0, "")); ("B", (3, "A")); ("C", (4, "B"))].




(* ================================================================== *)
(** * Facts about the containers *)

Section OrderedSetFacts.
Context {A : Type}.
Variable cmp : A -> A -> comparison.
Hypothesis cmp_eq : forall x y, cmp x y = Eq <-> x = y.
Hypothesis cmp_antisym : forall x y, cmp x y = CompOpp (cmp y x).
Hypothesis cmp_trans :
  forall x y z, cmp x y = Lt -> cmp y z = Lt -> cmp x z = Lt.

Lemma cmp_gt_lt x y : cmp x y = Gt -> cmp y x = Lt.
Proof.
  intros H. rewrite cmp_antisym in H.
  destruct (cmp y x); simpl in H; congruence.
Qed.

Lemma lt_of_irrefl x : ~ lt_of cmp x x.
Proof.
  unfold lt_of. intros H.
  assert (E : cmp x x = Eq) by (apply cmp_eq; reflexivity). congruence.
Qed.

Lemma In_set_insert x y s :
  In x (set_insert cmp y s) <-> x = y \/ In x s.
Proof.
  induction s as [|z s IH]; simpl.
  - intuition.
  - destruct (cmp y z) eqn:E; simpl.
    + apply cmp_eq in E. subst z. intuition.
    + intuition.
    + rewrite IH. intuition.
Qed.

Lemma set_insert_length x s :
  (List.length (set_insert cmp x s) <= S (List.length s))%nat.
Proof.
  induction s as [|z s IH]; simpl.
  - lia.
  - destruct (cmp x z); simpl; lia.
Qed.

Lemma set_insert_sorted x s : sorted cmp s -> sorted cmp (set_insert cmp x s).
Proof.
  unfold sorted. induction s as [|z s IH]; simpl; intros Hs.
  - constructor; constructor.
  - inversion Hs as [|? ? Hs' Hall]; subst.
    destruct (cmp x z) eqn:E.
    + assumption.
    + constructor; [assumption|].
      constructor; [exact E|].
      rewrite Forall_forall in *. intros y Hy.
      eapply cmp_trans; [exact E|]. apply Hall, Hy.
    + constructor; [apply IH, Hs'|].
      rewrite Forall_forall in *. intros y Hy.
      apply In_set_insert in Hy. destruct Hy as [->|Hy].
      * apply cmp_gt_lt, E.
      * apply Hall, Hy.
Qed.

(** A set has one representation: two increasing lists with the same
    elements are the same list. *)
Lemma sorted_unique s1 :
  forall s2, sorted cmp s1 -> sorted cmp s2 ->
             (forall x, In x s1 <-> In x s2) -> s1 = s2.
Proof.
  unfold sorted.
  induction s1 as [|a s1 IH]; intros [|b s2] H1 H2 Hin.
  - reflexivity.
  - exfalso. apply (proj2 (Hin b)). left; reflexivity.
  - exfalso. apply (proj1 (Hin a)). left; reflexivity.
  - inversion H1 as [|? ? H1' Hall1]; subst.
    inversion H2 as [|? ? H2' Hall2]; subst.
    rewrite Forall_forall in Hall1, Hall2.
    assert (Eab : a = b).
    { destruct (proj1 (Hin a) (or_introl eq_refl)) as [E|Ha]; [congruence|].
      destruct (proj2 (Hin b) (or_introl eq_refl)) as [E|Hb]; [congruence|].
      exfalso. apply (lt_of_irrefl a).
      eapply cmp_trans; [apply Hall1, Hb | apply Hall2, Ha]. }
    subst b. f_equal. apply IH; try assumption.
    intros x; split; intros Hx.
    + destruct (proj1 (Hin x) (or_intror Hx)) as [E|Hx']; [|exact Hx'].
      subst x. exfalso. apply (lt_of_irrefl a). apply Hall1, Hx.
    + destruct (proj2 (Hin x) (or_intror Hx)) as [E|Hx']; [|exact Hx'].
      subst x. exfalso. apply (lt_of_irrefl a). apply Hall2, Hx.
Qed.



Lemma sorted_head_least x s y : sorted cmp (x :: s) -> In y s -> lt_of cmp x y.
Proof.
  intros H Hy. inversion H as [|? ? _ Hall]; subst.
  rewrite Forall_forall in Hall. apply Hall, Hy.
Qed.
End OrderedSetFacts.

Lemma string_compare_eq a b : String.compare a b = Eq <-> a = b.
Proof. apply String_as_OT.cmp_eq. Qed.

Lemma string_compare_refl a : String.compare a a = Eq.
Proof. apply string_compare_eq. reflexivity. Qed.

Lemma string_compare_trans a b c :
  String.compare a b = Lt -> String.compare b c = Lt -> String.compare a c = Lt.
Proof.
  intros H1 H2. apply String_as_OT.cmp_lt.
  apply String_as_OT.cmp_lt in H1. apply String_as_OT.cmp_lt in H2.
  eapply String_as_OT.lt_trans; eassumption.
Qed.

Lemma string_compare_antisym a b :
  String.compare a b = CompOpp (String.compare b a).
Proof. apply String_as_OT.cmp_antisym. Qed.

Lemma edge_cmp_eq x y : edge_cmp x y = Eq <-> x = y.
Proof.
  destruct x as [a w], y as [b w']. unfold edge_cmp; simpl. split.
  - destruct (String.compare a b) eqn:E; try discriminate.
    intros H. apply string_compare_eq in E. apply Z.compare_eq in H. congruence.
  - intros H. inversion H; subst.
    rewrite string_compare_refl. apply Z.compare_refl.
Qed.

Lemma edge_cmp_antisym x y : edge_cmp x y = CompOpp (edge_cmp y x).
Proof.
  destruct x as [a w], y as [b w']. unfold edge_cmp; simpl.
  rewrite (string_compare_antisym a b), (Z.compare_antisym w' w).
  destruct (String.compare b a); reflexivity.
Qed.

Lemma edge_cmp_trans x y z :
  edge_cmp x y = Lt -> edge_cmp y z = Lt -> edge_cmp x z = Lt.
Proof.
  destruct x as [a u], y as [b v], z as [c w]. unfold edge_cmp; simpl.
  destruct (String.compare a b) eqn:E1; try discriminate;
    destruct (String.compare b c) eqn:E2; try discriminate; intros H1 H2.
  - apply string_compare_eq in E1, E2. subst.
    rewrite string_compare_refl. rewrite Z.compare_lt_iff in *. lia.
  - apply string_compare_eq in E1. subst. rewrite E2. reflexivity.
  - apply string_compare_eq in E2. subst. rewrite E1. reflexivity.
  - rewrite (string_compare_trans _ _ _ E1 E2). reflexivity.
Qed.

Lemma queue_cmp_eq x y : queue_cmp x y = Eq <-> x = y.
Proof.
  destruct x as [d a], y as [d' b]. unfold queue_cmp; simpl. split.
  - destruct (Z.compare d d') eqn:E; try discriminate.
    intros H. apply string_compare_eq in H. apply Z.compare_eq in E. congruence.
  - intros H. inversion H; subst.
    rewrite Z.compare_refl. apply string_compare_refl.
Qed.

Lemma queue_cmp_antisym x y : queue_cmp x y = CompOpp (queue_cmp y x).
Proof.
  destruct x as [d a], y as [d' b]. unfold queue_cmp; simpl.
  rewrite (string_compare_antisym a b), (Z.compare_antisym d' d).
  destruct (Z.compare d' d); reflexivity.
Qed.

Lemma queue_cmp_trans x y z :
  queue_cmp x y = Lt -> queue_cmp y z = Lt -> queue_cmp x z = Lt.
Proof.
  destruct x as [u a], y as [v b], z as [w c]. unfold queue_cmp; simpl.
  destruct (Z.compare u v) eqn:E1; try discriminate;
    destruct (Z.compare v w) eqn:E2; try discriminate; intros H1 H2.
  - apply Z.compare_eq in E1, E2. subst.
    rewrite Z.compare_refl. eapply string_compare_trans; eassumption.
  - apply Z.compare_eq in E1. subst. rewrite E2. reflexivity.
  - apply Z.compare_eq in E2. subst. rewrite E1. reflexivity.
  - rewrite Z.compare_lt_iff in *.
    assert (H : (u ?= w) = Lt) by (apply Z.compare_lt_iff; lia).
    rewrite H. reflexivity.
Qed.

(** The queue order, read off a comparison. *)
Lemma queue_cmp_lt d a d' b :
  queue_cmp (d, a) (d', b) = Lt <->
  d < d' \/ (d = d' /\ String.compare a b = Lt).
Proof.
  unfold queue_cmp; simpl. destruct (Z.compare d d') eqn:E.
  - apply Z.compare_eq in E. subst. split; [intros H; right; auto|].
    intros [H|[_ H]]; [lia|exact H].
  - rewrite Z.compare_lt_iff in E. split; auto.
  - rewrite Z.compare_gt_iff in E. split; [discriminate|].
    intros [H|[H _]]; lia.
Qed.

Section OrderedMapFacts.
Context {V : Type}.
Implicit Types (m : list (string * V)) (k : string) (v : V).

Lemma map_find_set_eq k v m : map_find k (map_set k v m) = Some v.
Proof.
  induction m as [|[k' v'] m IH]; simpl.
  - rewrite String.eqb_refl. reflexivity.
  - destruct (String.compare k k') eqn:E; simpl.
    + rewrite String.eqb_refl. reflexivity.
    + rewrite String.eqb_refl. reflexivity.
    + destruct (String.eqb k k') eqn:E'; [|exact IH].
      apply String.eqb_eq in E'. subst k'.
      rewrite string_compare_refl in E. discriminate.
Qed.

Lemma map_find_set_neq k k' v m :
  k <> k' -> map_find k' (map_set k v m) = map_find k' m.
Proof.
  intros Hne. induction m as [|[k0 v0] m IH]; simpl.
  - destruct (String.eqb k' k) eqn:E; [|reflexivity].
    apply String.eqb_eq in E. congruence.
  - destruct (String.compare k k0) eqn:E; simpl.
    + apply string_compare_eq in E. subst k0.
      destruct (String.eqb k' k) eqn:E'; [|reflexivity].
      apply String.eqb_eq in E'. congruence.
    + destruct (String.eqb k' k) eqn:E'; [|reflexivity].
      apply String.eqb_eq in E'. congruence.
    + rewrite IH. reflexivity.
Qed.

Lemma map_find_set k k' v m :
  map_find k' (map_set k v m) = if String.eqb k' k then Some v else map_find k' m.
Proof.
  destruct (String.eqb k' k) eqn:E.
  - apply String.eqb_eq in E. subst. apply map_find_set_eq.
  - apply String.eqb_neq in E. apply map_find_set_neq. congruence.
Qed.

Lemma map_find_In k v m : map_find k m = Some v -> In (k, v) m.
Proof.
  induction m as [|[k' v'] m IH]; simpl; [discriminate|].
  destruct (String.eqb k k') eqn:E.
  - apply String.eqb_eq in E. intros H. left. congruence.
  - intros H. right. apply IH, H.
Qed.

Lemma In_map_find k v m : In (k, v) m -> map_find k m <> None.
Proof.
  induction m as [|[k' v'] m IH]; simpl; [tauto|].
  intros [H|H].
  - inversion H; subst. rewrite String.eqb_refl. discriminate.
  - destruct (String.eqb k k'); [discriminate|]. apply IH, H.
Qed.

(** [m[k]] leaves every entry that exists as it is, and creates [k]. *)
Lemma map_index_find d k m k' :
  map_find k' (snd (map_index d k m)) =
  match map_find k' m with
  | Some v => Some v
  | None => if String.eqb k' k then Some d else None
  end.
Proof.
  unfold map_index. destruct (map_find k m) eqn:E; simpl.
  - destruct (map_find k' m) eqn:E'; [reflexivity|].
    destruct (String.eqb k' k) eqn:Ek; [|reflexivity].
    apply String.eqb_eq in Ek. congruence.
  - rewrite map_find_set. destruct (String.eqb k' k) eqn:Ek.
    + apply String.eqb_eq in Ek. subst. rewrite E. reflexivity.
    + destruct (map_find k' m); reflexivity.
Qed.

Lemma map_index_present d k m v :
  map_find k m = Some v -> map_index d k m = (v, m).
Proof. unfold map_index. intros ->. reflexivity. Qed.
End OrderedMapFacts.

(* ================================================================== *)
(** * The loader *)

Lemma read_word_nonempty s w r : read_word s = Some (w, r) -> w <> "".
Proof.
  unfold read_word. destruct (take_word (skipws s)) as [w' r'].
  destruct w'; [discriminate|]. intros H; inversion H; subst. discriminate.
Qed.

Lemma parse_edge_nonempty line s d w :
  parse_edge line = Some (s, d, w) -> s <> "" /\ d <> "".
Proof.
  unfold parse_edge.
  destruct (read_word line) as [[s' r1]|] eqn:E1; [|discriminate].
  destruct (read_word r1) as [[d' r2]|] eqn:E2; [|discriminate].
  destruct (read_int r2) as [[w' r3]|]; [|discriminate].
  intros H; inversion H; subst.
  split; eapply read_word_nonempty; eassumption.
Qed.

(** The graph after [add_edge], entry by entry. *)
Lemma add_edge_find g s d w k :
  map_find k (add_edge g s d w) =
  if String.eqb k s then
    Some (set_insert edge_cmp (d, w)
            (match map_find s g with Some e => e | None => [] end))
  else match map_find k g with
       | Some e => Some e
       | None => if String.eqb k d then Some [] else None
       end.
Proof.
  unfold add_edge.
  destruct (map_index [] s g) as [edges g1] eqn:E1.
  assert (Hg1 : g1 = snd (map_index [] s g)) by (rewrite E1; reflexivity).
  assert (Hedges : edges = match map_find s g with Some e => e | None => [] end).
  { unfold map_index in E1. destruct (map_find s g); inversion E1; reflexivity. }
  rewrite map_index_find, map_find_set. subst edges.
  destruct (String.eqb k s) eqn:Eks; [reflexivity|].
  rewrite Hg1, map_index_find, Eks.
  destruct (map_find k g); reflexivity.
Qed.

Lemma add_edge_keeps_keys g s d w k :
  map_find k g <> None -> map_find k (add_edge g s d w) <> None.
Proof.
  rewrite add_edge_find. destruct (String.eqb k s); [discriminate|].
  destruct (map_find k g); [discriminate|tauto].
Qed.

Lemma add_edge_dest_key g s d w : map_find d (add_edge g s d w) <> None.
Proof.
  rewrite add_edge_find. destruct (String.eqb d s); [discriminate|].
  rewrite String.eqb_refl. destruct (map_find d g); discriminate.
Qed.

Lemma add_edge_closed g s d w : dest_closed g -> dest_closed (add_edge g s d w).
Proof.
  intros Hc u v x [edges [Hu Hin]].
  rewrite add_edge_find in Hu. destruct (String.eqb u s) eqn:Eus.
  - inversion Hu; subst edges; clear Hu.
    apply (In_set_insert edge_cmp edge_cmp_eq) in Hin.
    destruct Hin as [Hin|Hin].
    + inversion Hin; subst. apply add_edge_dest_key.
    + apply String.eqb_eq in Eus. subst u.
      destruct (map_find s g) as [e|] eqn:Es; [|contradiction].
      apply add_edge_keeps_keys. apply (Hc s v x). exists e. auto.
  - destruct (map_find u g) as [e|] eqn:Eu.
    + inversion Hu; subst e. apply add_edge_keeps_keys.
      apply (Hc u v x). exists edges. auto.
    + destruct (String.eqb u d); [|discriminate].
      inversion Hu; subst edges. contradiction.
Qed.

Lemma add_edge_sorted g s d w : edges_sorted g -> edges_sorted (add_edge g s d w).
Proof.
  intros Hs u edges Hu. rewrite add_edge_find in Hu.
  destruct (String.eqb u s) eqn:Eus.
  - inversion Hu; subst edges.
    apply (set_insert_sorted edge_cmp edge_cmp_eq edge_cmp_antisym edge_cmp_trans).
    destruct (map_find s g) as [e|] eqn:Es.
    + apply (Hs s e Es).
    + constructor.
  - destruct (map_find u g) as [e|] eqn:Eu.
    + inversion Hu; subst e. apply (Hs u edges Eu).
    + destruct (String.eqb u d); [|discriminate].
      inversion Hu. constructor.
Qed.

Lemma load_line_ok g line : graph_ok g -> graph_ok (load_line g line).
Proof.
  intros [Hc Hs Hn]. unfold load_line.
  destruct (parse_edge line) as [[[s d] w]|] eqn:E; [|split; assumption].
  apply parse_edge_nonempty in E. destruct E as [Hs0 Hd0].
  split.
  - apply add_edge_closed, Hc.
  - apply add_edge_sorted, Hs.
  - rewrite add_edge_find.
    destruct (String.eqb "" s) eqn:E1.
    { apply String.eqb_eq in E1. congruence. }
    rewrite Hn. destruct (String.eqb "" d) eqn:E2; [|reflexivity].
    apply String.eqb_eq in E2. congruence.
Qed.

Lemma fold_load_ok lines : forall g, graph_ok g -> graph_ok (fold_left load_line lines g).
Proof.
  induction lines as [|l lines IH]; simpl; intros g Hg.
  - exact Hg.
  - apply IH, load_line_ok, Hg.
Qed.

Lemma empty_graph_ok : graph_ok [].
Proof.
  split.
  - intros u v w [e [H _]]. discriminate.
  - intros u e H. discriminate.
  - reflexivity.
Qed.

Lemma loadFromFile_ok lines : graph_ok (loadFromFile lines).
Proof. apply fold_load_ok, empty_graph_ok. Qed.

(** A node that no line names as a source keeps an empty edge set once it
    has one, and gets one when a line names it as a destination. *)
Lemma fold_load_only_destination v lines :
  (forall line s d w, In line lines -> parse_edge line = Some (s, d, w) -> s <> v) ->
  forall g,
    map_find v g = Some [] \/
    (map_find v g = None /\
     exists line s w, In line lines /\ parse_edge line = Some (s, v, w)) ->
    map_find v (fold_left load_line lines g) = Some [].
Proof.
  induction lines as [|l lines IH]; simpl; intros Hsrc g Hg.
  - destruct Hg as [Hg|[_ [line [s [w [[] _]]]]]]. exact Hg.
  - apply IH.
    + intros line s d w Hin. apply Hsrc. right. exact Hin.
    + unfold load_line.
      destruct (parse_edge l) as [[[s d] w]|] eqn:E.
      * assert (Hsv : s <> v) by (eapply (Hsrc l); [left; reflexivity|exact E]).
        rewrite add_edge_find.
        destruct (String.eqb v s) eqn:Evs.
        { apply String.eqb_eq in Evs. congruence. }
        destruct Hg as [Hg|[Hg [line [s' [w' [Hin Hp]]]]]].
        { left. rewrite Hg. reflexivity. }
        rewrite Hg. destruct (String.eqb v d) eqn:Evd; [left; reflexivity|].
        right. split; [reflexivity|].
        destruct Hin as [Hin|Hin].
        { subst line. rewrite E in Hp. inversion Hp; subst.
          rewrite String.eqb_refl in Evd. discriminate. }
        exists line, s', w'. auto.
      * destruct Hg as [Hg|[Hg [line [s' [w' [Hin Hp]]]]]]; [left; exact Hg|].
        right. split; [exact Hg|].
        destruct Hin as [Hin|Hin]; [subst; congruence|].
        exists line, s', w'. auto.
Qed.

Lemma add_edge_has_edge g s d w : edge (add_edge g s d w) s d w.
Proof.
  eexists. split.
  - rewrite add_edge_find, String.eqb_refl. reflexivity.
  - apply (In_set_insert edge_cmp edge_cmp_eq). left. reflexivity.
Qed.

Lemma add_edge_keeps_edge g s d w u v x :
  edge g u v x -> edge (add_edge g s d w) u v x.
Proof.
  intros [edges [Hu Hin]]. unfold edge. rewrite add_edge_find.
  destruct (String.eqb u s) eqn:Eus.
  - apply String.eqb_eq in Eus. subst u. rewrite Hu.
    eexists. split; [reflexivity|].
    apply (In_set_insert edge_cmp edge_cmp_eq). right. exact Hin.
  - rewrite Hu. exists edges. auto.
Qed.

Lemma fold_load_keeps_edge u v x lines :
  forall g, edge g u v x -> edge (fold_left load_line lines g) u v x.
Proof.
  induction lines as [|l lines IH]; simpl; intros g He.
  - exact He.
  - apply IH. unfold load_line.
    destruct (parse_edge l) as [[[s d] w]|]; [|exact He].
    apply add_edge_keeps_edge, He.
Qed.

Lemma fold_load_has_edge line s d w lines :
  In line lines -> parse_edge line = Some (s, d, w) ->
  forall g, edge (fold_left load_line lines g) s d w.
Proof.
  intros Hin Hp. induction lines as [|l lines IH]; simpl; intros g.
  - contradiction.
  - destruct Hin as [->|Hin].
    + apply fold_load_keeps_edge. unfold load_line. rewrite Hp.
      apply add_edge_has_edge.
    + apply IH, Hin.
Qed.

(** C5: after loading any edge list every destination of an edge of the graph
    is a key of the graph; every line that parses as an edge is an edge of the
    graph and its destination is a key; and a node that the lines name only as
    a destination is a key with an empty edge set. *)
Theorem loadFromFile_destinations_are_keys (lines : list string) :
  dest_closed (loadFromFile lines) /\
  (forall line s d w,
      In line lines -> parse_edge line = Some (s, d, w) ->
      edge (loadFromFile lines) s d w /\
      map_find d (loadFromFile lines) <> None) /\
  forall v,
    (exists line s w, In line lines /\ parse_edge line = Some (s, v, w)) ->
    (forall line s d w,
        In line lines -> parse_edge line = Some (s, d, w) -> s <> v) ->
    map_find v (loadFromFile lines) = Some [] /\
    map_count v (loadFromFile lines) = 1.
Proof.
  split; [apply loadFromFile_ok|]. split.
  - intros line s d w Hin Hp.
    assert (He : edge (loadFromFile lines) s d w)
      by (apply (fold_load_has_edge line); assumption).
    split; [exact He|].
    apply (ok_closed _ (loadFromFile_ok lines) s d w He).
  - intros v Hdst Hsrc.
    assert (H : map_find v (loadFromFile lines) = Some []).
    { apply fold_load_only_destination; [exact Hsrc|].
      right. split; [reflexivity|exact Hdst]. }
    split; [exact H|]. unfold map_count. rewrite H. reflexivity.
Qed.

(* ================================================================== *)
(** * Termination of the engine

    Every update of line 117 lowers an [int], and [int]s are bounded below:
    the loop of lines 108-126 ends on every graph, whatever its weights. *)

Lemma wrap_range z : INT_MIN <= wrap z <= INT_MAX.
Proof.
  unfold wrap, INT_MIN, INT_MAX.
  pose proof (Z.mod_pos_bound (z + 2147483648) 4294967296 ltac:(lia)). lia.
Qed.

Lemma wrap_small z : INT_MIN <= z <= INT_MAX -> wrap z = z.
Proof.
  unfold wrap, INT_MIN, INT_MAX. intros H.
  rewrite Z.mod_small by lia. lia.
Qed.

Lemma slot_nonneg paths x : 0 <= slot paths x.
Proof. unfold slot. destruct (map_find x paths); lia. Qed.

Lemma potential_nonneg U paths : 0 <= potential U paths.
Proof.
  induction U as [|x U IH]; simpl; [lia|].
  pose proof (slot_nonneg paths x). lia.
Qed.

Lemma potential_le U p p' :
  (forall x, slot p' x <= slot p x) -> potential U p' <= potential U p.
Proof.
  intros H. induction U as [|x U IH]; simpl; [lia|].
  specialize (H x). lia.
Qed.

Lemma potential_lt U p p' y :
  (forall x, slot p' x <= slot p x) -> In y U -> slot p' y < slot p y ->
  potential U p' < potential U p.
Proof.
  intros H. induction U as [|x U IH]; simpl; [tauto|].
  intros [->|Hy] Hlt.
  - pose proof (potential_le U p p' H). lia.
  - specialize (IH Hy Hlt). specialize (H x). lia.
Qed.

Lemma slot_map_index k paths x :
  slot (snd (map_index (0, "") k paths)) x <= slot paths x.
Proof.
  unfold slot. rewrite map_index_find.
  destruct (map_find x paths); [lia|].
  destruct (String.eqb x k); simpl; lia.
Qed.

Lemma map_index_fst_find {V} (d : V) k m :
  map_find k (snd (map_index d k m)) = Some (fst (map_index d k m)).
Proof.
  unfold map_index. destruct (map_find k m) eqn:E; simpl.
  - exact E.
  - apply map_find_set_eq.
Qed.

Lemma relax_measure U current :
  forall edges paths queue paths' queue',
    (forall e, In e edges -> In (fst e) U) ->
    relax current edges paths queue = (paths', queue') ->
    measure U paths' queue' <= measure U paths queue.
Proof.
  induction edges as [|[v w] edges IH]; simpl; intros paths queue paths' queue' HU H.
  - inversion H; subst. lia.
  - destruct (map_index (0, "") current paths) as [rc paths1] eqn:E1.
    destruct (map_index (0, "") v paths1) as [rn paths2] eqn:E2.
    assert (H1 : forall x, slot paths1 x <= slot paths x).
    { intros x. replace paths1 with (snd (map_index (0, "") current paths))
        by (rewrite E1; reflexivity). apply slot_map_index. }
    assert (H2 : forall x, slot paths2 x <= slot paths1 x).
    { intros x. replace paths2 with (snd (map_index (0, "") v paths1))
        by (rewrite E2; reflexivity). apply slot_map_index. }
    assert (Hv : map_find v paths2 = Some rn).
    { pose proof (map_index_fst_find (0, "") v paths1) as Hf.
      rewrite E2 in Hf. exact Hf. }
    assert (HU' : forall e, In e edges -> In (fst e) U)
      by (intros e He; apply HU; right; exact He).
    assert (P1 : potential U paths2 <= potential U paths).
    { apply potential_le. intros x. specialize (H1 x). specialize (H2 x). lia. }
    destruct (int_add (fst rc) w <? fst rn) eqn:Elt.
    + apply Z.ltb_lt in Elt.
      specialize (IH _ _ _ _ HU' H). unfold measure in *.
      pose proof (wrap_range (fst rc + w)) as Hr. unfold int_add in *.
      unfold INT_MIN in Hr.
      set (p3 := map_set v (wrap (fst rc + w), current) paths2) in *.
      assert (P3 : potential U p3 < potential U paths2).
      { apply (potential_lt U paths2 p3 v).
        - intros x. unfold slot, p3. rewrite map_find_set.
          destruct (String.eqb x v) eqn:Ex; simpl; [|lia].
          apply String.eqb_eq in Ex. subst x. rewrite Hv. lia.
        - apply (HU (v, w)). left; reflexivity.
        - unfold slot, p3. rewrite map_find_set_eq, Hv. simpl. lia. }
      pose proof (set_insert_length queue_cmp (wrap (fst rc + w), v) queue).
      lia.
    + specialize (IH _ _ _ _ HU' H). unfold measure in *. lia.
Qed.

Lemma edges_in_nodes g u edges e :
  map_find u g = Some edges -> In e edges -> In (fst e) (nodes g).
Proof.
  intros Hu He. apply map_find_In in Hu. unfold nodes.
  apply in_flat_map. exists (u, edges). split; [exact Hu|].
  simpl. right. apply in_map, He.
Qed.

Lemma Dijkstra_loop_terminates g :
  forall fuel paths queue,
    measure (nodes g) paths queue < Z.of_nat fuel ->
    exists paths', Dijkstra_loop fuel g paths queue = Some paths'.
Proof.
  induction fuel as [|fuel IH]; intros paths queue Hm.
  - exfalso. unfold measure in Hm.
    pose proof (potential_nonneg (nodes g) paths). lia.
  - destruct queue as [|[k current] queue]; simpl; [eauto|].
    destruct (map_find current g) as [edges|] eqn:Ec; [|eauto].
    destruct (relax current edges paths queue) as [paths' queue'] eqn:Er.
    apply IH.
    pose proof (relax_measure (nodes g) current edges paths queue paths' queue'
                  (fun e He => edges_in_nodes g current edges e Ec He) Er) as Hle.
    unfold measure in *. simpl List.length in Hm. lia.
Qed.

Lemma Dijkstra_loop_more_fuel g :
  forall fuel fuel' paths queue paths',
    Dijkstra_loop fuel g paths queue = Some paths' ->
    (fuel <= fuel')%nat ->
    Dijkstra_loop fuel' g paths queue = Some paths'.
Proof.
  induction fuel as [|fuel IH]; intros fuel' paths queue paths' H Hle.
  - destruct queue as [|[k c] q]; simpl in H; [|discriminate].
    destruct fuel'; simpl; exact H.
  - destruct fuel' as [|fuel']; [lia|].
    destruct queue as [|[k c] q]; simpl in *; [exact H|].
    destruct (map_find c g) as [edges|]; [|exact H].
    destruct (relax c edges paths q) as [p1 q1].
    apply (IH fuel'); [exact H|lia].
Qed.

Lemma Dijkstra_terminates g start end_ :
  exists paths, Dijkstra (enough_fuel g start) g start end_ = Some paths.
Proof.
  unfold Dijkstra, enough_fuel. apply Dijkstra_loop_terminates.
  set (m := measure _ _ _).
  assert (0 <= m).
  { unfold m, measure. pose proof (potential_nonneg (nodes g) (init_paths g start)). lia. }
  lia.
Qed.

Lemma Dijkstra_more_fuel g start end_ fuel fuel' paths :
  Dijkstra fuel g start end_ = Some paths -> (fuel <= fuel')%nat ->
  Dijkstra fuel' g start end_ = Some paths.
Proof. unfold Dijkstra. apply Dijkstra_loop_more_fuel. Qed.

Lemma Dijkstra_fuel_irrelevant g start end_ fuel fuel' p p' :
  Dijkstra fuel g start end_ = Some p ->
  Dijkstra fuel' g start end_ = Some p' -> p = p'.
Proof.
  intros H H'.
  pose proof (Dijkstra_more_fuel _ _ _ _ (Nat.max fuel fuel') _ H ltac:(lia)) as H1.
  pose proof (Dijkstra_more_fuel _ _ _ _ (Nat.max fuel fuel') _ H' ltac:(lia)) as H2.
  congruence.
Qed.

(* ================================================================== *)
(** * Correctness of the engine *)

Lemma init_paths_fold start (l : Graph) :
  forall (acc : Paths) v,
    map_find v
      (fold_left
         (fun (paths : Paths) (node : string * list (string * Z)) =>
            if String.eqb (fst node) start
            then map_set (fst node) (0, "") paths
            else map_set (fst node) unreached paths) l acc) =
    match map_find v l with
    | Some _ => Some (if String.eqb v start then (0, "") else unreached)
    | None => map_find v acc
    end.
Proof.
  induction l as [|[k e] l IH]; simpl; intros acc v.
  - reflexivity.
  - rewrite IH. destruct (map_find v l) eqn:El.
    + destruct (String.eqb v k); reflexivity.
    + destruct (String.eqb v k) eqn:Evk.
      * apply String.eqb_eq in Evk. subst k.
        destruct (String.eqb v start); apply map_find_set_eq.
      * apply String.eqb_neq in Evk.
        destruct (String.eqb k start); apply map_find_set_neq; congruence.
Qed.

Lemma init_paths_find g start v :
  map_find v (init_paths g start) =
  match map_find v g with
  | Some _ => Some (if String.eqb v start then (0, "") else unreached)
  | None => None
  end.
Proof.
  unfold init_paths. rewrite init_paths_fold.
  destruct (map_find v g); reflexivity.
Qed.

Lemma rooted_weaken s S S' paths v :
  (forall x, In x S -> In x S') -> rooted s S paths v -> rooted s S' paths v.
Proof.
  intros Hsub H. induction H as [|v d p Hv Hf Hp _ IH].
  - constructor.
  - eapply rooted_step; eauto.
Qed.

Lemma rooted_preserved s S paths paths' v :
  (forall x, In x S -> map_find x paths' = map_find x paths) ->
  rooted s S paths v -> In v S \/ v = s -> rooted s S paths' v.
Proof.
  intros Hsame H. induction H as [|v d p Hv Hf Hp _ IH]; intros Hin.
  - constructor.
  - destruct Hin as [Hin|Hin]; [|congruence].
    eapply rooted_step; [exact Hv| |exact Hp|apply IH; left; exact Hp].
    rewrite (Hsame v Hin). exact Hf.
Qed.

Section Engine.
Variable g : Graph.
Variable s : string.
Hypothesis Hok : graph_ok g.
Hypothesis Hkey : map_find s g <> None.
Hypothesis Hnonneg : nonneg_weights g.
Hypothesis Hsafe : no_overflow g s.

Lemma Inv_init : Inv g s [] s [] (init_paths g s) (set_insert queue_cmp (0, s) []).
Proof.
  clear Hok Hnonneg Hsafe.
  destruct (map_find s g) as [es|] eqn:Es; [clear Hkey|congruence].
  split.
  - intros v. rewrite init_paths_find. destruct (map_find v g); split; congruence.
  - rewrite init_paths_find, Es, String.eqb_refl. reflexivity.
  - intros v d p. rewrite init_paths_find.
    destruct (map_find v g); [|discriminate].
    destruct (String.eqb v s) eqn:Ev; intros H; inversion H; subst.
    + right. apply String.eqb_eq in Ev. subst v.
      split; [unfold INT_MAX; lia|]. split; [constructor|]. left. auto.
    + left. auto.
  - intros u [].
  - intros u v w du pu [].
  - simpl. intros k v [H|[]]. inversion H; subst.
    split; [unfold INT_MAX; lia|]. split; [congruence|].
    exists 0, "". rewrite init_paths_find, Es, String.eqb_refl. split; [reflexivity|lia].
  - intros v d p. rewrite init_paths_find.
    destruct (map_find v g); [|discriminate].
    destruct (String.eqb v s) eqn:Ev; intros H; inversion H; subst.
    + apply String.eqb_eq in Ev. subst v. intros _. right. left. reflexivity.
    + unfold INT_MAX. lia.
  - simpl. constructor; constructor.
  - intros u [].
Qed.

(** A path from the source either ends at a record not above its length,
    or passes a node that is not settled with a record not above it. *)
Lemma frontier_bound S c paths queue :
  Inv g s S c [] paths queue ->
  forall v L, walk g s v L ->
    exists y dy py, map_find y paths = Some (dy, py) /\ dy <= L /\
                    (y = v \/ ~ In y S).
Proof.
  intros I v L Hw. induction Hw as [|u v w L Hw IH He].
  - exists s, 0, "". split; [apply (inv_src _ _ _ _ _ _ _ I)|]. split; [lia|auto].
  - destruct IH as [y [dy [py [Hy [Hle Hcase]]]]].
    pose proof (Hnonneg _ _ _ He) as Hw0.
    destruct (in_dec string_dec y S) as [Hin|Hnin].
    + destruct Hcase as [->|Hn]; [|contradiction].
      destruct (inv_relaxed _ _ _ _ _ _ _ I u v w dy py Hin He Hy)
        as [[_ []]|[dv [pv [Hv Hdv]]]].
      exists v, dv, pv. split; [exact Hv|]. split; [lia|auto].
    + exists y, dy, py. split; [exact Hy|]. split; [lia|auto].
Qed.

(** The node at the head of the queue has its final distance. *)
Lemma head_is_shortest S c paths k u queue :
  Inv g s S c [] paths ((k, u) :: queue) ->
  exists d p, map_find u paths = Some (d, p) /\ d < INT_MAX /\
              forall L, walk g s u L -> d <= L.
Proof.
  intros I.
  destruct (inv_queue_ge _ _ _ _ _ _ _ I k u (or_introl eq_refl))
    as [Hk [_ [d [p [Hu Hd]]]]].
  exists d, p. split; [exact Hu|]. split; [lia|].
  intros L Hw.
  destruct (frontier_bound _ _ _ _ I u L Hw) as [y [dy [py [Hy [Hle Hcase]]]]].
  destruct Hcase as [->|Hnin]; [congruence|].
  destruct (Z_lt_le_dec dy INT_MAX) as [Hfin|Hinf]; [|lia].
  destruct (inv_queue_has _ _ _ _ _ _ _ I y dy py Hy Hfin) as [Hin|Hin];
    [contradiction|].
  destruct Hin as [Hin|Hin].
  + inversion Hin; subst. congruence.
  + pose proof (sorted_head_least queue_cmp _ _ _ (inv_sorted _ _ _ _ _ _ _ I) Hin) as Hlt.
    apply queue_cmp_lt in Hlt. lia.
Qed.

Lemma reached_weaken S S' paths v d p :
  (forall x, In x S -> In x S') ->
  reached g s S paths v d p -> reached g s S' paths v d p.
Proof.
  intros Hsub [Hd [Hw Hp]]. split; [exact Hd|]. split; [exact Hw|].
  destruct Hp as [Hp|[Hv [Hin Hex]]]; [left; exact Hp|].
  right. split; [exact Hv|]. split; [apply Hsub, Hin|exact Hex].
Qed.

Lemma edge_in u v w edges :
  map_find u g = Some edges -> edge g u v w -> In (v, w) edges.
Proof. intros Hu [e [He Hin]]. congruence. Qed.

(** Taking the head of the queue: it joins the settled nodes and all its
    edges are to be looked at. *)
Lemma Inv_pop S c paths k u queue edges :
  Inv g s S c [] paths ((k, u) :: queue) ->
  map_find u g = Some edges ->
  exists S', Inv g s S' u edges paths queue /\ In u S'.
Proof.
  intros I Hu.
  assert (Hsorted : sorted queue_cmp queue).
  { pose proof (inv_sorted _ _ _ _ _ _ _ I) as Hs.
    inversion Hs; assumption. }
  assert (Hge : forall k' v, In (k', v) queue ->
            k' < INT_MAX /\ map_find v g <> None /\
            exists d p, map_find v paths = Some (d, p) /\ d <= k').
  { intros k' v Hin. apply (inv_queue_ge _ _ _ _ _ _ _ I). right. exact Hin. }
  destruct (in_dec string_dec u S) as [Hin|Hnin].
  - exists S. split; [|exact Hin]. split.
    + apply (inv_keys _ _ _ _ _ _ _ I).
    + apply (inv_src _ _ _ _ _ _ _ I).
    + apply (inv_rec _ _ _ _ _ _ _ I).
    + apply (inv_settled _ _ _ _ _ _ _ I).
    + intros x v w du pu Hx He Hf.
      destruct (inv_relaxed _ _ _ _ _ _ _ I x v w du pu Hx He Hf) as [[_ []]|H].
      right. exact H.
    + exact Hge.
    + intros v d p Hf Hd.
      destruct (inv_queue_has _ _ _ _ _ _ _ I v d p Hf Hd) as [H|[H|H]].
      * left. exact H.
      * inversion H; subst. left. exact Hin.
      * right. exact H.
    + exact Hsorted.
    + apply (inv_rooted _ _ _ _ _ _ _ I).
  - destruct (head_is_shortest _ _ _ _ _ _ I) as [d [p [Hf [Hd Hlow]]]].
    assert (Hsub : forall x, In x S -> In x (u :: S)) by (intros; right; assumption).
    exists (u :: S). split; [|left; reflexivity]. split.
    + apply (inv_keys _ _ _ _ _ _ _ I).
    + apply (inv_src _ _ _ _ _ _ _ I).
    + intros v d' p' Hv.
      destruct (inv_rec _ _ _ _ _ _ _ I v d' p' Hv) as [H|H]; [left; exact H|].
      right. eapply reached_weaken; eassumption.
    + intros x [<-|Hx].
      * exists d, p. auto.
      * apply (inv_settled _ _ _ _ _ _ _ I x Hx).
    + intros x v w du pu [<-|Hx] He Hfx.
      * left. split; [reflexivity|]. eapply edge_in; eassumption.
      * destruct (inv_relaxed _ _ _ _ _ _ _ I x v w du pu Hx He Hfx) as [[_ []]|H].
        right. exact H.
    + exact Hge.
    + intros v d' p' Hv Hd'.
      destruct (inv_queue_has _ _ _ _ _ _ _ I v d' p' Hv Hd') as [H|[H|H]].
      * left. right. exact H.
      * inversion H; subst. left. left. reflexivity.
      * right. exact H.
    + exact Hsorted.
    + intros x [<-|Hx].
      * destruct (inv_rec _ _ _ _ _ _ _ I u d p Hf) as [[H _]|[_ [_ H]]]; [lia|].
        destruct H as [[-> _]|[Hus [Hp _]]]; [constructor|].
        eapply rooted_step; [exact Hus|exact Hf|right; exact Hp|].
        eapply rooted_weaken; [exact Hsub|].
        apply (inv_rooted _ _ _ _ _ _ _ I p Hp).
      * eapply rooted_weaken; [exact Hsub|].
        apply (inv_rooted _ _ _ _ _ _ _ I x Hx).
Qed.

(** Line 116 found no improvement: the edge is relaxed. *)
Lemma Inv_relax_skip S c v w rest paths queue dc pc dv pv :
  Inv g s S c ((v, w) :: rest) paths queue ->
  map_find c paths = Some (dc, pc) ->
  map_find v paths = Some (dv, pv) ->
  dv <= dc + w ->
  Inv g s S c rest paths queue.
Proof.
  intros I Hc Hv Hle. split.
  - apply (inv_keys _ _ _ _ _ _ _ I).
  - apply (inv_src _ _ _ _ _ _ _ I).
  - apply (inv_rec _ _ _ _ _ _ _ I).
  - apply (inv_settled _ _ _ _ _ _ _ I).
  - intros x y w' du pu Hx He Hfx.
    destruct (inv_relaxed _ _ _ _ _ _ _ I x y w' du pu Hx He Hfx)
      as [[-> [H|H]]|H].
    + inversion H; subst. right. exists dv, pv.
      split; [exact Hv|]. rewrite Hc in Hfx. inversion Hfx; subst. exact Hle.
    + left. auto.
    + right. exact H.
  - apply (inv_queue_ge _ _ _ _ _ _ _ I).
  - apply (inv_queue_has _ _ _ _ _ _ _ I).
  - apply (inv_sorted _ _ _ _ _ _ _ I).
  - apply (inv_rooted _ _ _ _ _ _ _ I).
Qed.

(** What is known of a settled node. *)
Lemma settled_facts S c todo paths queue x dx px :
  Inv g s S c todo paths queue -> In x S ->
  map_find x paths = Some (dx, px) ->
  0 <= dx < INT_MAX /\ shortest g s x dx.
Proof.
  intros I Hin Hx.
  destruct (inv_settled _ _ _ _ _ _ _ I x Hin) as [d [p [Hf [Hd Hlow]]]].
  rewrite Hx in Hf. inversion Hf; subst d p.
  destruct (inv_rec _ _ _ _ _ _ _ I x dx px Hx) as [[H _]|[H [Hw _]]]; [lia|].
  split; [exact H|]. split; assumption.
Qed.

(** Lines 117-119: the record of [v] is lowered and [v] is queued. *)
Lemma Inv_relax_update S c v w rest paths queue dc pc dv pv :
  Inv g s S c ((v, w) :: rest) paths queue ->
  In c S -> edge g c v w ->
  map_find c paths = Some (dc, pc) ->
  map_find v paths = Some (dv, pv) ->
  dc + w < dv ->
  Inv g s S c rest (map_set v (dc + w, c) paths)
    (set_insert queue_cmp (dc + w, v) queue).
Proof.
  intros I Hin He Hc Hv Hlt.
  destruct (settled_facts _ _ _ _ _ _ _ _ I Hin Hc) as [Hdc Hshort].
  pose proof (Hnonneg _ _ _ He) as Hw0.
  assert (Hmax : dc + w < INT_MAX).
  { destruct (inv_rec _ _ _ _ _ _ _ I v dv pv Hv) as [[H _]|[H _]]; lia. }
  assert (Hwalk : walk g s v (dc + w)) by (eapply walk_step; [apply Hshort|exact He]).
  assert (HvS : ~ In v S).
  { intros HvS. destruct (inv_settled _ _ _ _ _ _ _ I v HvS) as [d [p [Hf [_ Hlow]]]].
    rewrite Hv in Hf. inversion Hf; subst d p.
    specialize (Hlow _ Hwalk). lia. }
  assert (Hvs : v <> s).
  { intros ->. rewrite (inv_src _ _ _ _ _ _ _ I) in Hv. inversion Hv; subst. lia. }
  assert (Hsame : forall x, In x S -> map_find x (map_set v (dc + w, c) paths)
                                    = map_find x paths).
  { intros x Hx. apply map_find_set_neq. intros ->. contradiction. }
  split.
  - intros x. rewrite map_find_set. destruct (String.eqb x v) eqn:Ex.
    + apply String.eqb_eq in Ex. subst x. split; [|discriminate].
      intros _. apply (inv_keys _ _ _ _ _ _ _ I). congruence.
    + apply (inv_keys _ _ _ _ _ _ _ I).
  - rewrite map_find_set_neq by congruence. apply (inv_src _ _ _ _ _ _ _ I).
  - intros x d p. rewrite map_find_set. destruct (String.eqb x v) eqn:Ex.
    + apply String.eqb_eq in Ex. subst x. intros H. inversion H; subst d p.
      right. split; [lia|]. split; [exact Hwalk|]. right.
      split; [exact Hvs|]. split; [exact Hin|].
      exists dc, pc, w. rewrite (Hsame c Hin). auto.
    + intros Hx.
      destruct (inv_rec _ _ _ _ _ _ _ I x d p Hx) as [H|[Hd [Hwx Hp]]];
        [left; exact H|].
      right. split; [exact Hd|]. split; [exact Hwx|].
      destruct Hp as [Hp|[Hxs [Hp [dp [pp [w' [Hfp Hrest]]]]]]]; [left; exact Hp|].
      right. split; [exact Hxs|]. split; [exact Hp|].
      exists dp, pp, w'. rewrite (Hsame p Hp). auto.
  - intros x Hx. rewrite (Hsame x Hx). apply (inv_settled _ _ _ _ _ _ _ I x Hx).
  - intros x y w' du pu Hx Hexy. rewrite (Hsame x Hx). intros Hfx.
    destruct (inv_relaxed _ _ _ _ _ _ _ I x y w' du pu Hx Hexy Hfx)
      as [[-> [H|H]]|[dy [py [Hy Hle]]]].
    + injection H as <- <-. right. exists (dc + w), c.
      rewrite map_find_set_eq. split; [reflexivity|].
      rewrite Hc in Hfx. injection Hfx as <- <-. lia.
    + left. auto.
    + right. rewrite map_find_set. destruct (String.eqb y v) eqn:Ey.
      * apply String.eqb_eq in Ey. subst y.
        rewrite Hv in Hy. inversion Hy; subst dy py.
        exists (dc + w), c. split; [reflexivity|lia].
      * exists dy, py. auto.
  - intros k x Hk.
    apply (In_set_insert queue_cmp queue_cmp_eq) in Hk. destruct Hk as [Hk|Hk].
    + inversion Hk; subst k x. split; [lia|].
      split; [apply (inv_keys _ _ _ _ _ _ _ I); congruence|].
      exists (dc + w), c. rewrite map_find_set_eq. split; [reflexivity|lia].
    + destruct (inv_queue_ge _ _ _ _ _ _ _ I k x Hk) as [Hkm [Hxg [d [p [Hf Hd]]]]].
      split; [exact Hkm|]. split; [exact Hxg|].
      rewrite map_find_set. destruct (String.eqb x v) eqn:Ex.
      * apply String.eqb_eq in Ex. subst x.
        rewrite Hv in Hf. inversion Hf; subst d p.
        exists (dc + w), c. split; [reflexivity|lia].
      * exists d, p. auto.
  - intros x d p. rewrite map_find_set. destruct (String.eqb x v) eqn:Ex.
    + apply String.eqb_eq in Ex. subst x. intros H _. inversion H; subst d p.
      right. apply (In_set_insert queue_cmp queue_cmp_eq). left. reflexivity.
    + intros Hx Hd.
      destruct (inv_queue_has _ _ _ _ _ _ _ I x d p Hx Hd) as [H|H];
        [left; exact H|].
      right. apply (In_set_insert queue_cmp queue_cmp_eq). right. exact H.
  - apply (set_insert_sorted queue_cmp queue_cmp_eq queue_cmp_antisym queue_cmp_trans).
    apply (inv_sorted _ _ _ _ _ _ _ I).
  - intros x Hx. eapply rooted_preserved; [exact Hsame| |left; exact Hx].
    apply (inv_rooted _ _ _ _ _ _ _ I x Hx).
Qed.

(** One edge of line 113, as the invariant sees it: no record is created
    and the addition does not wrap. *)
Lemma relax_step S c v w rest paths queue :
  Inv g s S c ((v, w) :: rest) paths queue ->
  In c S -> edge g c v w ->
  exists dc pc dv pv,
    map_find c paths = Some (dc, pc) /\ map_find v paths = Some (dv, pv) /\
    relax c ((v, w) :: rest) paths queue =
    if dc + w <? dv
    then relax c rest (map_set v (dc + w, c) paths)
           (set_insert queue_cmp (dc + w, v) queue)
    else relax c rest paths queue.
Proof.
  intros I Hin He.
  destruct (inv_settled _ _ _ _ _ _ _ I c Hin) as [dc [pc [Hc _]]].
  destruct (settled_facts _ _ _ _ _ _ _ _ I Hin Hc) as [Hdc Hshort].
  pose proof (Hsafe _ _ _ _ Hshort He) as Hmax.
  pose proof (Hnonneg _ _ _ He) as Hw0.
  assert (Hvk : map_find v paths <> None).
  { apply (inv_keys _ _ _ _ _ _ _ I). eapply (ok_closed _ Hok). exact He. }
  destruct (map_find v paths) as [[dv pv]|] eqn:Hv; [|congruence].
  exists dc, pc, dv, pv. split; [exact Hc|]. split; [reflexivity|].
  simpl. rewrite (map_index_present _ _ _ _ Hc).
  rewrite (map_index_present _ _ _ _ Hv). simpl.
  unfold int_add. rewrite wrap_small by (unfold INT_MIN; lia).
  reflexivity.
Qed.

Lemma relax_inv S c edges :
  map_find c g = Some edges -> In c S ->
  forall todo paths queue paths' queue',
    (forall e, In e todo -> In e edges) ->
    Inv g s S c todo paths queue ->
    relax c todo paths queue = (paths', queue') ->
    Inv g s S c [] paths' queue'.
Proof.
  intros Hc Hin.
  induction todo as [|[v w] rest IH]; intros paths queue paths' queue' Hsub I Hr.
  - simpl in Hr. inversion Hr; subst. exact I.
  - assert (He : edge g c v w).
    { exists edges. split; [exact Hc|]. apply Hsub. left. reflexivity. }
    destruct (relax_step _ _ _ _ _ _ _ I Hin He) as [dc [pc [dv [pv [Hfc [Hfv Heq]]]]]].
    rewrite Heq in Hr.
    assert (Hsub' : forall e, In e rest -> In e edges)
      by (intros e H; apply Hsub; right; exact H).
    destruct (dc + w <? dv) eqn:Elt.
    + apply Z.ltb_lt in Elt. eapply IH; [exact Hsub'| |exact Hr].
      eapply Inv_relax_update; eassumption.
    + apply Z.ltb_ge in Elt. eapply IH; [exact Hsub'| |exact Hr].
      eapply Inv_relax_skip; eassumption.
Qed.

(** The invariant holds when the loop of lines 108-126 ends, and the loop
    ends on an empty queue. *)
Lemma Dijkstra_loop_inv :
  forall fuel S c paths queue paths',
    Inv g s S c [] paths queue ->
    Dijkstra_loop fuel g paths queue = Some paths' ->
    exists S' c', Inv g s S' c' [] paths' [].
Proof.
  induction fuel as [|fuel IH]; intros S c paths queue paths' I H.
  - destruct queue as [|[k u] queue]; simpl in H; [|discriminate].
    inversion H; subst. eauto.
  - destruct queue as [|[k u] queue]; simpl in H.
    + inversion H; subst. eauto.
    + destruct (inv_queue_ge _ _ _ _ _ _ _ I k u (or_introl eq_refl)) as [_ [Hu _]].
      destruct (map_find u g) as [edges|] eqn:Eu; [|congruence].
      destruct (Inv_pop _ _ _ _ _ _ _ I Eu) as [S' [I' Hin]].
      destruct (relax u edges paths queue) as [p1 q1] eqn:Er.
      eapply IH; [|exact H].
      eapply relax_inv; [exact Eu|exact Hin| |exact I'|exact Er].
      auto.
Qed.

(** At the end no record is above the length of a path to its node. *)
Lemma final_lower S c paths :
  Inv g s S c [] paths [] ->
  forall t L, walk g s t L ->
    exists d p, map_find t paths = Some (d, p) /\ d <= L.
Proof.
  intros I t L Hw. induction Hw as [|u v w L Hw IH He].
  - exists 0, "". split; [apply (inv_src _ _ _ _ _ _ _ I)|lia].
  - destruct IH as [du [pu [Hu Hdu]]].
    pose proof (Hnonneg _ _ _ He) as Hw0.
    assert (Hvk : map_find v paths <> None).
    { apply (inv_keys _ _ _ _ _ _ _ I). eapply (ok_closed _ Hok). exact He. }
    destruct (map_find v paths) as [[dv pv]|] eqn:Hv; [|congruence].
    exists dv, pv. split; [reflexivity|].
    destruct (Z_lt_le_dec du INT_MAX) as [Hfin|Hinf].
    + destruct (inv_queue_has _ _ _ _ _ _ _ I u du pu Hu Hfin) as [HuS|[]].
      destruct (inv_relaxed _ _ _ _ _ _ _ I u v w du pu HuS He Hu)
        as [[_ []]|[dv' [pv' [Hv' Hle]]]].
      rewrite Hv in Hv'. injection Hv' as <- <-. lia.
    + destruct (inv_rec _ _ _ _ _ _ _ I v dv pv Hv) as [[H _]|[H _]]; lia.
Qed.

(** At the end every record of a node that a path leads to is the length of
    a path to it. *)
Lemma final_attained S c paths :
  Inv g s S c [] paths [] ->
  forall t L, walk g s t L ->
    exists d p, map_find t paths = Some (d, p) /\ walk g s t d.
Proof.
  intros I t L Hw. induction Hw as [|u v w L Hw IH He].
  - exists 0, "". split; [apply (inv_src _ _ _ _ _ _ _ I)|constructor].
  - destruct IH as [du [pu [Hu Hwu]]].
    assert (Hshort : shortest g s u du).
    { split; [exact Hwu|]. intros L' Hw'.
      destruct (final_lower S c paths I u L' Hw') as [d' [p' [Hf Hle]]].
      rewrite Hu in Hf. injection Hf as <- <-. exact Hle. }
    pose proof (Hsafe _ _ _ _ Hshort He) as Hmax.
    assert (Hwv : walk g s v (du + w)) by (eapply walk_step; eassumption).
    destruct (final_lower S c paths I v _ Hwv) as [dv [pv [Hv Hle]]].
    exists dv, pv. split; [exact Hv|].
    destruct (inv_rec _ _ _ _ _ _ _ I v dv pv Hv) as [[H _]|[_ [H _]]]; [|exact H].
    replace dv with (du + w) by lia. exact Hwv.
Qed.

(** The run from [s] ends, and ends in a state of the invariant with an
    empty queue. *)
Lemma Dijkstra_final end_ :
  exists paths S c,
    Dijkstra (enough_fuel g s) g s end_ = Some paths /\
    Inv g s S c [] paths [].
Proof.
  destruct (Dijkstra_terminates g s end_) as [paths H].
  destruct (Dijkstra_loop_inv _ _ _ _ _ _ Inv_init H) as [S [c I]].
  exists paths, S, c. auto.
Qed.
End Engine.

(* ================================================================== *)
(** * The reconstruction of a route *)


Lemma legs_loop_more_fuel g path :
  forall fuel fuel' i r,
    legs_loop fuel g path i = Ret r -> (fuel <= fuel')%nat ->
    legs_loop fuel' g path i = Ret r.
Proof.
  induction fuel as [|fuel IH]; intros fuel' i r H Hle.
  - simpl in H. destruct (i <? size_t_sub (Z.of_nat (List.length path)) 1) eqn:E;
      [discriminate|].
    destruct fuel'; simpl; rewrite E; exact H.
  - destruct fuel' as [|fuel']; [lia|]. simpl in *.
    destruct (i <? size_t_sub (Z.of_nat (List.length path)) 1); [|exact H].
    destruct (nth_error path (Z.to_nat i)); [|discriminate].
    destruct (nth_error path (Z.to_nat (i + 1))); [|discriminate].
    destruct (map_find s g); [|discriminate].
    destruct (legs_loop fuel g path (i + 1)) as [rest| |] eqn:E; try discriminate.
    rewrite (IH fuel' (i + 1) rest E) by lia. exact H.
Qed.

Lemma size_t_sub_succ n : size_t_sub (Z.of_nat (S n)) 1 = Z.of_nat n.
Proof.
  unfold size_t_sub. destruct (Z.of_nat (S n) <? 1) eqn:E.
  - apply Z.ltb_lt in E. lia.
  - lia.
Qed.

(** [legs_loop] from index [length pre] computes the legs of the rest. *)
Lemma legs_loop_legs_of g :
  forall post pre fuel,
    post <> [] -> (List.length post <= fuel)%nat ->
    legs_loop fuel g (pre ++ post)%list (Z.of_nat (List.length pre))
    = legs_of g post.
Proof.
  induction post as [|a post IH]; intros pre fuel Hne Hfuel; [congruence|].
  destruct post as [|b post].
  - assert (E : (Z.of_nat (List.length pre)
                 <? size_t_sub (Z.of_nat (List.length (pre ++ [a])%list)) 1) = false).
    { rewrite length_app. simpl List.length.
      replace (List.length pre + 1)%nat with (S (List.length pre)) by lia.
      rewrite size_t_sub_succ. apply Z.ltb_irrefl. }
    destruct fuel; simpl; rewrite E; reflexivity.
  - destruct fuel as [|fuel]; [simpl in Hfuel; lia|].
    assert (E : (Z.of_nat (List.length pre)
                 <? size_t_sub (Z.of_nat (List.length (pre ++ a :: b :: post)%list)) 1) = true).
    { rewrite length_app. simpl List.length.
      replace (List.length pre + S (S (List.length post)))%nat
        with (S (List.length pre + S (List.length post))) by lia.
      rewrite size_t_sub_succ. apply Z.ltb_lt. lia. }
    cbn [legs_loop]. rewrite E.
    rewrite Nat2Z.id.
    replace (Z.to_nat (Z.of_nat (List.length pre) + 1)) with (S (List.length pre)) by lia.
    rewrite (nth_error_app2 pre (a :: b :: post) (n := List.length pre)) by lia.
    rewrite (nth_error_app2 pre (a :: b :: post) (n := S (List.length pre))) by lia.
    rewrite Nat.sub_diag.
    replace (S (List.length pre) - List.length pre)%nat with 1%nat by lia.
    cbn [nth_error legs_of].
    destruct (map_find a g) as [edges|]; [|reflexivity].
    specialize (IH (pre ++ [a])%list fuel ltac:(discriminate) ltac:(simpl in *; lia)).
    rewrite <- app_assoc in IH. simpl in IH.
    rewrite length_app in IH. simpl in IH.
    replace (Z.of_nat (List.length pre + 1)) with (Z.of_nat (List.length pre) + 1) in IH by lia.
    rewrite IH. reflexivity.
Qed.

Lemma legs_loop_from_start g path fuel :
  path <> [] -> (List.length path <= fuel)%nat ->
  legs_loop fuel g path 0 = legs_of g path.
Proof. intros. apply (legs_loop_legs_of g path [] fuel); assumption. Qed.

Lemma legs_of_cons g a b rest :
  legs_of g (a :: b :: rest) =
  match map_find a g with
  | None => Raise OutOfRange
  | Some edges =>
      r <- legs_of g (b :: rest) ;; Ret ((a, b, first_match b edges) :: r)
  end.
Proof. reflexivity. Qed.

(** One more node at the end of a path is one more leg at the end. *)
Lemma legs_of_snoc g p v edges :
  map_find p g = Some edges ->
  forall l legs,
    legs_of g (l ++ [p])%list = Ret legs ->
    legs_of g (l ++ [p; v])%list = Ret (legs ++ [(p, v, first_match v edges)])%list.
Proof.
  intros Hp. induction l as [|a l IH]; intros legs H.
  - simpl app in *. rewrite legs_of_cons, Hp. simpl in *.
    inversion H; subst. reflexivity.
  - assert (Hl : exists b rest, (l ++ [p])%list = b :: rest)
      by (destruct l; simpl; eauto).
    destruct Hl as [b [rest Hl]].
    assert (Hl2 : (l ++ [p; v])%list = b :: (rest ++ [v])%list).
    { change [p; v] with ([p] ++ [v])%list. rewrite app_assoc, Hl. reflexivity. }
    simpl app in *. rewrite Hl, legs_of_cons in H.
    rewrite Hl2, legs_of_cons.
    destruct (map_find a g) as [ea|]; [|discriminate].
    rewrite <- Hl in H. rewrite <- Hl2.
    destruct (legs_of g (l ++ [p])%list) as [r| |] eqn:E; try discriminate.
    rewrite (IH r eq_refl). simpl in *. inversion H; subst.
    reflexivity.
Qed.

Lemma is_route_snoc g s legs u v w :
  is_route g s legs u -> edge g u v w ->
  is_route g s (legs ++ [(u, v, w)])%list v.
Proof.
  revert s. induction legs as [|[[a b] x] legs IH]; simpl; intros s H He.
  - subst. auto.
  - destruct H as [Ha [Hab Hr]]. auto.
Qed.

Lemma legs_total_snoc legs l : legs_total (legs ++ [l])%list = legs_total legs + snd l.
Proof.
  induction legs as [|x legs IH]; simpl; [lia|].
  unfold legs_total in *. simpl. rewrite IH. lia.
Qed.

Lemma is_route_walk g : forall legs s t,
  is_route g s legs t -> walk g s t (legs_total legs).
Proof.
  intros legs. induction legs as [|l legs IH] using rev_ind; intros s t H.
  - simpl in H. subst. constructor.
  - destruct l as [[a b] w]. rewrite legs_total_snoc. simpl.
    assert (Hsplit : is_route g s legs a /\ edge g a b w /\ b = t).
    { clear IH. revert s H. induction legs as [|[[a' b'] w'] legs IH']; simpl; intros s H.
      - destruct H as [-> [He ->]]. auto.
      - destruct H as [-> [He Hr]]. destruct (IH' _ Hr) as [H1 [H2 H3]]. auto. }
    destruct Hsplit as [Hr [He <-]].
    eapply walk_step; [apply IH, Hr|exact He].
Qed.

Lemma walk_is_route g s t L :
  walk g s t L -> exists legs, is_route g s legs t /\ legs_total legs = L.
Proof.
  induction 1 as [|u v w L _ [legs [Hr Ht]] He].
  - exists []. simpl. auto.
  - exists (legs ++ [(u, v, w)])%list. split.
    + apply is_route_snoc; assumption.
    + rewrite legs_total_snoc. simpl. lia.
Qed.

(** In an ordered edge set the first edge to [v] is the lightest one. *)
Lemma first_match_least v w edges :
  sorted edge_cmp edges -> In (v, w) edges ->
  (forall w', In (v, w') edges -> w <= w') ->
  first_match v edges = w.
Proof.
  unfold sorted. induction edges as [|[b x] edges IH]; simpl; intros Hs Hin Hmin.
  - contradiction.
  - inversion Hs as [|? ? Hs' Hall]; subst.
    destruct (String.eqb b v) eqn:Eb.
    + apply String.eqb_eq in Eb. subst b.
      destruct Hin as [Hin|Hin]; [congruence|].
      rewrite Forall_forall in Hall. specialize (Hall _ Hin).
      unfold lt_of, edge_cmp in Hall. simpl in Hall.
      rewrite string_compare_refl in Hall. change (x < w) in Hall.
      specialize (Hmin x (or_introl eq_refl)). lia.
    + destruct Hin as [Hin|Hin].
      * inversion Hin; subst. rewrite String.eqb_refl in Eb. discriminate.
      * apply IH; auto.
Qed.

Section Route.
Variable g : Graph.
Variable s : string.
Hypothesis Hok : graph_ok g.
Variable S : list string.
Variable c : string.
Variable paths : Paths.
Hypothesis I : Inv g s S c [] paths [].

Lemma record_named v r : map_find v paths = Some r -> v <> "".
Proof.
  intros Hv ->.
  assert (H : map_find "" paths <> None) by congruence.
  apply (inv_keys _ _ _ _ _ _ _ I) in H. apply H, (ok_named _ Hok).
Qed.

Lemma hd_error_app_some {A} (l l' : list A) x :
  hd_error l = Some x -> hd_error (l ++ l')%list = Some x.
Proof. destruct l; simpl; [discriminate|auto]. Qed.

(** Following the predecessors from a settled node: the loop of lines
    148-151 ends at the source, and the path it collects gives legs that
    add up to the distance of the node. *)
Lemma rooted_route v :
  rooted s S paths v -> In v S ->
  forall d p, map_find v paths = Some (d, p) ->
  exists back legs,
    hd_error back = Some v /\ hd_error (rev back) = Some s /\
    (forall fuel acc, (List.length back <= fuel)%nat ->
                      walk_back fuel paths v acc = Ret (acc ++ back)%list) /\
    legs_of g (rev back) = Ret legs /\
    is_route g s legs v /\ legs_total legs = d /\
    Forall (leg_committed g paths) legs.
Proof.
  intros Hr. induction Hr as [|v d0 p0 Hvs Hf0 Hp0 Hr IH]; intros Hin d p Hf.
  - rewrite (inv_src _ _ _ _ _ _ _ I) in Hf. injection Hf as <- <-.
    exists [s], []. simpl.
    split; [reflexivity|]. split; [reflexivity|]. split.
    + intros fuel acc Hfuel. destruct fuel as [|fuel]; [simpl in Hfuel; lia|].
      pose proof (record_named s _ (inv_src _ _ _ _ _ _ _ I)) as Hne.
      destruct s as [|a s']; [congruence|].
      simpl. rewrite (inv_src _ _ _ _ _ _ _ I). simpl.
      destruct fuel; reflexivity.
    + split; [reflexivity|]. split; [reflexivity|]. split; [reflexivity|constructor].
  - rewrite Hf in Hf0. injection Hf0 as <- <-.
    destruct (settled_facts g s S c [] paths [] v d p I Hin Hf) as [Hd _].
    destruct (inv_rec _ _ _ _ _ _ _ I v d p Hf) as [[H _]|[_ [_ H]]]; [lia|].
    destruct H as [[H _]|[_ [_ [dp [pp [w [Hfp [He Hdw]]]]]]]]; [congruence|].
    destruct (IH Hp0 dp pp Hfp)
      as [back [legs [Hhd [Hlast [Hwalk [Hlegs [Hroute [Htotal Hcomm]]]]]]]].
    destruct He as [edges [Hpe Hine]].
    assert (Hedge : edge g p v w) by (exists edges; auto).
    assert (Hmin : forall w', edge g p v w' -> w <= w').
    { intros w' He'.
      destruct (inv_relaxed _ _ _ _ _ _ _ I p v w' dp pp Hp0 He' Hfp)
        as [[_ []]|[dv [pv [Hv Hle]]]].
      rewrite Hf in Hv. injection Hv as <- <-. lia. }
    assert (Hfm : first_match v edges = w).
    { apply first_match_least.
      - apply (ok_sorted _ Hok p edges Hpe).
      - exact Hine.
      - intros w' Hin'. apply Hmin. exists edges. auto. }
    destruct back as [|p' tl]; [discriminate|].
    simpl in Hhd. injection Hhd as ->.
    exists (v :: p :: tl), (legs ++ [(p, v, w)])%list.
    split; [reflexivity|]. split.
    { change (rev (v :: p :: tl)) with (rev (p :: tl) ++ [v])%list.
      apply hd_error_app_some, Hlast. }
    split.
    { intros fuel acc Hfuel. destruct fuel as [|fuel]; [simpl in Hfuel; lia|].
      pose proof (record_named v _ Hf) as Hne.
      destruct v as [|a v']; [congruence|].
      simpl. rewrite Hf. simpl.
      rewrite (Hwalk fuel (acc ++ [String a v'])%list) by (simpl in *; lia).
      rewrite <- app_assoc. reflexivity. }
    split.
    { change (rev (v :: p :: tl)) with ((rev tl ++ [p]) ++ [v])%list.
      rewrite <- app_assoc. simpl app.
      rewrite <- Hfm. apply legs_of_snoc; [exact Hpe|exact Hlegs]. }
    split; [apply is_route_snoc; assumption|].
    split; [rewrite legs_total_snoc; simpl; lia|].
    apply Forall_app. split; [exact Hcomm|].
    constructor; [|constructor].
    exists dp, pp, d, edges. repeat (split; [assumption|]). assumption.
Qed.

(** The legs of the route to a node whose distance is not the sentinel. *)
Lemma route_legs_correct t d p :
  map_find t paths = Some (d, p) -> d <> INT_MAX ->
  exists back legs,
    hd_error back = Some t /\ hd_error (rev back) = Some s /\
    (forall fuel, (List.length back <= fuel)%nat ->
                  walk_back fuel paths t [] = Ret back /\
                  legs_loop fuel g (rev back) 0 = Ret legs /\
                  route_legs fuel g paths t = Ret legs) /\
    is_route g s legs t /\ legs_total legs = d /\
    Forall (leg_committed g paths) legs.
Proof.
  intros Hf Hd.
  assert (Hlt : d < INT_MAX).
  { destruct (inv_rec _ _ _ _ _ _ _ I t d p Hf) as [[H _]|[H _]]; [congruence|lia]. }
  assert (Hin : In t S).
  { destruct (inv_queue_has _ _ _ _ _ _ _ I t d p Hf Hlt) as [H|[]]. exact H. }
  destruct (rooted_route t (inv_rooted _ _ _ _ _ _ _ I t Hin) Hin d p Hf)
    as [back [legs [Hhd [Hlast [Hwalk [Hlegs [Hroute [Htotal Hcomm]]]]]]]].
  exists back, legs. repeat (split; [assumption|]).
  split; [|auto].
  intros fuel Hfuel.
  assert (Hw : walk_back fuel paths t [] = Ret back) by (apply (Hwalk fuel [] Hfuel)).
  assert (Hl : legs_loop fuel g (rev back) 0 = Ret legs).
  { rewrite legs_loop_from_start; [exact Hlegs| |rewrite length_rev; exact Hfuel].
    destruct back; [discriminate|]. simpl. intros H.
    apply app_eq_nil in H. destruct H; discriminate. }
  split; [exact Hw|]. split; [exact Hl|].
  unfold route_legs. rewrite Hw. simpl. exact Hl.
Qed.
End Route.

(* ================================================================== *)
(** * The query loop *)

Lemma map_count_key {V} k (m : list (string * V)) :
  map_find k m <> None -> map_count k m = 1.
Proof. unfold map_count. destruct (map_find k m); [reflexivity|congruence]. Qed.

Lemma map_count_missing {V} k (m : list (string * V)) :
  map_find k m = None -> map_count k m = 0.
Proof. unfold map_count. intros ->. reflexivity. Qed.


Lemma process_query_resolved g s t fuel paths d p legs :
  Dijkstra fuel g s t = Some paths ->
  map_find s g <> None -> map_find t g <> None ->
  map_find t paths = Some (d, p) -> d <> INT_MAX ->
  route_legs fuel g paths t = Ret legs ->
  process_query fuel g s t =
  ([CallDijkstra s t; SaveResults (resolved_message s t d legs)], Ret tt).
Proof.
  intros HD Hs Ht Hf Hd Hl. unfold process_query. rewrite HD.
  rewrite (map_count_key s g Hs), (map_count_key t g Ht).
  change ((1 =? 0) || (1 =? 0))%bool with false. cbv iota.
  rewrite (map_index_present _ _ _ _ Hf). cbv iota beta. cbn [fst].
  assert (E : (d =? INT_MAX) = false) by (apply Z.eqb_neq; exact Hd).
  rewrite E. rewrite (map_count_key t paths) by congruence.
  change (negb false && (1 >? 0))%bool with true. cbv iota.
  rewrite (map_index_present _ _ _ _ Hf). cbv iota beta. cbn [fst].
  unfold createResultsMessage. rewrite Hl. reflexivity.
Qed.




(** The state in which a run from a key of the graph ends. *)
Lemma Dijkstra_result g s t fuel paths :
  graph_ok g -> nonneg_weights g -> no_overflow g s -> map_find s g <> None ->
  Dijkstra fuel g s t = Some paths ->
  exists S c, Inv g s S c [] paths [].
Proof.
  intros Hok Hn Hsafe Hs HD.
  eapply Dijkstra_loop_inv; [..|exact HD]; try eassumption.
  apply Inv_init; assumption.
Qed.

(* ================================================================== *)
(** * The engine on graphs whose distances fit an [int] *)

(** C1, for distances that fit an [int]: on a graph with non-negative weights
    in which no minimum distance from the origin, extended by one more edge,
    exceeds [INT_MAX], the run from an origin that is a key ends, and for
    every destination that is a key and that a directed path leads to, the
    distance recorded in the returned map is the minimum over all directed
    paths of the sum of the weights. *)
Theorem Dijkstra_distance_is_minimum (g : Graph) (s t : string) :
  graph_ok g -> nonneg_weights g -> no_overflow g s ->
  map_find s g <> None -> map_find t g <> None ->
  (exists L, walk g s t L) ->
  exists fuel paths d p,
    Dijkstra fuel g s t = Some paths /\
    (forall fuel' paths', Dijkstra fuel' g s t = Some paths' -> paths' = paths) /\
    map_find t paths = Some (d, p) /\
    shortest g s t d.
Proof.
  intros Hok Hn Hsafe Hs Ht [L Hw].
  destruct (Dijkstra_terminates g s t) as [paths HD].
  destruct (Dijkstra_result g s t _ paths Hok Hn Hsafe Hs HD) as [S [c I]].
  destruct (final_attained g s Hok Hn Hsafe S c paths I t L Hw) as [d [p [Hf Hwd]]].
  exists (enough_fuel g s), paths, d, p.
  split; [exact HD|]. split.
  - intros fuel' paths' HD'. eapply Dijkstra_fuel_irrelevant; eassumption.
  - split; [exact Hf|]. split; [exact Hwd|].
    intros L' Hw'.
    destruct (final_lower g s Hok Hn S c paths I t L' Hw') as [d' [p' [Hf' Hle]]].
    rewrite Hf in Hf'. injection Hf' as <- <-. exact Hle.
Qed.

(** C2, for distances that fit an [int]: on a graph with non-negative weights
    and no overflow from the origin, a query whose endpoints are keys and
    whose destination ends with a distance other than the sentinel is answered
    with the resolved message; the legs of the message follow edges of the
    graph from the origin to the destination, and their distances add up to
    the total distance of the message. *)
Theorem resolved_legs_sum_to_total (g : Graph) (s t : string)
  (fuel : nat) (paths : Paths) (d : Z) (p : string) :
  graph_ok g -> nonneg_weights g -> no_overflow g s ->
  map_find s g <> None -> map_find t g <> None ->
  Dijkstra fuel g s t = Some paths ->
  map_find t paths = Some (d, p) -> d <> INT_MAX ->
  exists fuel0 legs,
    (forall fuel', (fuel0 <= fuel')%nat ->
       route_legs fuel' g paths t = Ret legs /\
       process_query fuel' g s t =
       ([CallDijkstra s t; SaveResults (resolved_message s t d legs)], Ret tt)) /\
    is_route g s legs t /\
    legs_total legs = d.
Proof.
  intros Hok Hn Hsafe Hs Ht HD Hf Hd.
  destruct (Dijkstra_result g s t _ paths Hok Hn Hsafe Hs HD) as [S [c I]].
  destruct (route_legs_correct g s Hok S c paths I t d p Hf Hd)
    as [back [legs [_ [_ [Hrun [Hroute [Htotal _]]]]]]].
  exists (Nat.max fuel (List.length back)), legs. split; [|split; assumption].
  intros fuel' Hfuel.
  destruct (Hrun fuel' ltac:(lia)) as [_ [_ Hl]].
  split; [exact Hl|].
  apply (process_query_resolved g s t fuel' paths d p legs); try assumption.
  eapply Dijkstra_more_fuel; [exact HD|lia].
Qed.

(** C6, for distances that fit an [int]: on a graph with non-negative weights
    and no overflow from the node, a query from a key of the graph to itself
    is answered with the resolved message of total distance 0 and no leg. *)
Theorem same_node_query_is_empty_route (g : Graph) (s : string) :
  graph_ok g -> nonneg_weights g -> no_overflow g s ->
  map_find s g <> None ->
  exists fuel0,
    forall fuel, (fuel0 <= fuel)%nat ->
      exists paths,
        Dijkstra fuel g s s = Some paths /\
        map_find s paths = Some (0, "") /\
        route_legs fuel g paths s = Ret [] /\
        process_query fuel g s s =
        ([CallDijkstra s s; SaveResults (resolved_message s s 0 [])], Ret tt).
Proof.
  intros Hok Hn Hsafe Hs.
  destruct (Dijkstra_terminates g s s) as [paths HD].
  destruct (Dijkstra_result g s s _ paths Hok Hn Hsafe Hs HD) as [S [c I]].
  pose proof (inv_src _ _ _ _ _ _ _ I) as Hsrc.
  exists (enough_fuel g s). intros fuel Hfuel. exists paths.
  assert (HD' : Dijkstra fuel g s s = Some paths)
    by (eapply Dijkstra_more_fuel; eassumption).
  assert (Hl : route_legs fuel g paths s = Ret []).
  { unfold route_legs.
    assert (Hw : walk_back fuel paths s [] = Ret [s]).
    { pose proof (record_named g s Hok S c paths I s _ Hsrc) as Hne.
      destruct fuel as [|fuel]; [unfold enough_fuel in Hfuel; lia|].
      destruct s as [|a s']; [congruence|].
      simpl. rewrite Hsrc. simpl. destruct fuel; reflexivity. }
    rewrite Hw. simpl. destruct fuel; reflexivity. }
  split; [exact HD'|]. split; [exact Hsrc|]. split; [exact Hl|].
  apply (process_query_resolved g s s fuel paths 0 "" []); try assumption.
  unfold INT_MAX. lia.
Qed.

(** C8, for distances that fit an [int]: on a graph with non-negative weights
    and no overflow from the origin, the weight reported for each leg of a
    reconstructed route, found by the scan for the first edge to the next
    node, is the weight the relaxation relied on: it is the difference between
    the recorded distance of the next node and that of its predecessor, and it
    is the least weight among the edges that join the two nodes. *)
Theorem reported_leg_weight_is_committed (g : Graph) (s t : string)
  (fuel : nat) (paths : Paths) (d : Z) (p : string) :
  graph_ok g -> nonneg_weights g -> no_overflow g s ->
  map_find s g <> None ->
  Dijkstra fuel g s t = Some paths ->
  map_find t paths = Some (d, p) -> d <> INT_MAX ->
  exists fuel0 legs,
    (forall fuel', (fuel0 <= fuel')%nat -> route_legs fuel' g paths t = Ret legs) /\
    Forall (leg_committed g paths) legs.
Proof.
  intros Hok Hn Hsafe Hs HD Hf Hd.
  destruct (Dijkstra_result g s t _ paths Hok Hn Hsafe Hs HD) as [S [c I]].
  destruct (route_legs_correct g s Hok S c paths I t d p Hf Hd)
    as [back [legs [_ [_ [Hrun [_ [_ Hcomm]]]]]]].
  exists (List.length back), legs. split; [|exact Hcomm].
  intros fuel' Hfuel. apply (Hrun fuel' Hfuel).
Qed.

(** C10, for distances that fit an [int]: on a graph with non-negative weights
    and no overflow from the source, for the map of a run from a key of the
    graph and a destination whose distance is not the sentinel, the walk along
    the predecessors ends, no lookup of [at] fails, the collected list is not
    empty and starts with the destination, its reversal starts with the
    source, [path.size() - 1] does not wrap and the loop on the legs ends
    without leaving the vector. *)
Theorem predecessor_walk_terminates (g : Graph) (s t : string)
  (fuel : nat) (paths : Paths) (d : Z) (p : string) :
  graph_ok g -> nonneg_weights g -> no_overflow g s ->
  map_find s g <> None ->
  Dijkstra fuel g s t = Some paths ->
  map_find t paths = Some (d, p) -> d <> INT_MAX ->
  exists back legs,
    (forall fuel', (List.length back <= fuel')%nat ->
       walk_back fuel' paths t [] = Ret back /\
       legs_loop fuel' g (rev back) 0 = Ret legs) /\
    back <> [] /\ hd_error back = Some t /\ hd_error (rev back) = Some s /\
    size_t_sub (Z.of_nat (List.length (rev back))) 1
    = Z.of_nat (List.length back) - 1.
Proof.
  intros Hok Hn Hsafe Hs HD Hf Hd.
  destruct (Dijkstra_result g s t _ paths Hok Hn Hsafe Hs HD) as [S [c I]].
  destruct (route_legs_correct g s Hok S c paths I t d p Hf Hd)
    as [back [legs [Hhd [Hlast [Hrun _]]]]].
  exists back, legs. split.
  - intros fuel' Hfuel. destruct (Hrun fuel' Hfuel) as [Hw [Hl _]]. auto.
  - split; [destruct back; [discriminate|congruence]|].
    split; [exact Hhd|]. split; [exact Hlast|].
    rewrite length_rev. destruct back as [|x back]; [discriminate|].
    cbn [List.length]. rewrite size_t_sub_succ. lia.
Qed.

(* ================================================================== *)
(** * Queries on unknown nodes, and runs that leave the loop early *)

Lemma Dijkstra_unknown_source g s e fuel :
  map_find s g = None -> Dijkstra (S fuel) g s e = Some (init_paths g s).
Proof. intros Hs. unfold Dijkstra. simpl. rewrite Hs. reflexivity. Qed.

(** C3, with the call of the engine as the program makes it: a query whose
    origin or destination is not a key of the graph is answered with "Brak
    informacji o polaczeniu", whatever the other endpoint is and whatever the
    weights of the graph are; the engine is called for it all the same, before
    the keys are looked at. *)
Theorem unknown_node_query_has_no_information (g : Graph) (s e : string) :
  map_find s g = None \/ map_find e g = None ->
  exists fuel0,
    forall fuel, (fuel0 <= fuel)%nat ->
      process_query fuel g s e =
      ([CallDijkstra s e; SaveResults (no_information_message s e)], Ret tt).
Proof.
  intros Hmiss.
  destruct (Dijkstra_terminates g s e) as [paths HD].
  exists (enough_fuel g s). intros fuel Hfuel.
  unfold process_query.
  rewrite (Dijkstra_more_fuel _ _ _ _ _ _ HD Hfuel).
  assert (E : ((map_count s g =? 0) || (map_count e g =? 0))%bool = true).
  { destruct Hmiss as [H|H]; rewrite (map_count_missing _ _ H).
    - reflexivity.
    - apply orb_true_r. }
  rewrite E. reflexivity.
Qed.

(** C4, with the early exit as the program makes it: when the queue yields a
    node without a record in the graph, the loop is left and the map is
    returned as it stands, as the ordinary result of the run. In the loop of
    [main] this is the case of a query from an unknown origin: it gets the
    message of the unknown nodes and the lines after it are processed as
    usual. *)
Theorem missing_record_ends_run_quietly (g : Graph) (paths : Paths) (k : Z)
  (current : string) (queue : Queue) (fuel : nat) :
  map_find current g = None ->
  Dijkstra_loop (S fuel) g paths ((k, current) :: queue) = Some paths /\
  forall line lines e,
    parse_query line = Some (current, e) ->
    main_loop (S fuel) g (line :: lines) =
    (CallDijkstra current e :: SaveResults (no_information_message current e)
       :: fst (main_loop (S fuel) g lines),
     snd (main_loop (S fuel) g lines)).
Proof.
  intros Hc. split.
  - simpl. rewrite Hc. reflexivity.
  - intros line lines e Hq. cbn [main_loop]. rewrite Hq.
    unfold process_query. rewrite (Dijkstra_unknown_source g current e fuel Hc).
    rewrite (map_count_missing _ _ Hc).
    change ((0 =? 0) || (map_count e g =? 0))%bool with true. cbv iota.
    destruct (main_loop (S fuel) g lines) as [events r]. reflexivity.
Qed.

(** C9, with the map as the program returns it: a run from a source that is
    not a key of the graph ends at its first step and returns the map of line
    96-103: one record for each key of the graph, every one of them the
    unreached record, and no record for the source. *)
Theorem unknown_source_run_is_all_unreached (g : Graph) (s e : string)
  (fuel : nat) :
  map_find s g = None ->
  exists paths,
    Dijkstra (S fuel) g s e = Some paths /\
    map_find s paths = None /\
    forall v, map_find v paths =
              match map_find v g with
              | Some _ => Some unreached
              | None => None
              end.
Proof.
  intros Hs. exists (init_paths g s).
  split; [apply Dijkstra_unknown_source, Hs|].
  split.
  - rewrite init_paths_find, Hs. reflexivity.
  - intros v. rewrite init_paths_find.
    destruct (map_find v g) eqn:Ev; [|reflexivity].
    destruct (String.eqb v s) eqn:Evs; [|reflexivity].
    apply String.eqb_eq in Evs. congruence.
Qed.

(* ================================================================== *)
(** * The order of the queue *)






(* ================================================================== *)
(** * The theorems on the example inputs *)

Lemma edge_in_list g u v w : edge g u v w -> In (u, v, w) (edge_list g).
Proof.
  intros [edges [Hu Hin]]. apply map_find_In in Hu.
  unfold edge_list. apply in_flat_map. exists (u, edges). split; [exact Hu|].
  simpl. apply (in_map (fun e : string * Z => (u, fst e, snd e)) edges (v, w) Hin).
Qed.

Lemma nonneg_check g :
  forallb (fun l : leg => 0 <=? snd l) (edge_list g) = true -> nonneg_weights g.
Proof.
  intros H u v w He. apply edge_in_list in He.
  rewrite forallb_forall in H. specialize (H _ He). simpl in H.
  apply Z.leb_le, H.
Qed.

Lemma no_overflow_check g s :
  Forall (fun l : leg =>
            exists L, walk g s (fst (fst l)) L /\ L + snd l <= INT_MAX)
         (edge_list g) ->
  no_overflow g s.
Proof.
  intros H u d v w [_ Hlow] He. apply edge_in_list in He.
  rewrite Forall_forall in H. destruct (H _ He) as [L [Hw HL]]. simpl in *.
  specialize (Hlow L Hw). lia.
Qed.

Lemma example_graph_ok : graph_ok example_graph.
Proof. apply loadFromFile_ok. Qed.

Lemma example_nonneg : nonneg_weights example_graph.
Proof. apply nonneg_check. vm_compute. reflexivity. Qed.

Lemma example_edge_AB : edge example_graph "A" "B" 5.
Proof. exists [("B", 5); ("C", 10)]. split; [reflexivity|simpl; auto]. Qed.

Lemma example_edge_BC : edge example_graph "B" "C" 3.
Proof. exists [("C", 3)]. split; [reflexivity|simpl; auto]. Qed.

Lemma example_walk_AB : walk example_graph "A" "B" 5.
Proof. apply (walk_step _ _ "A" "B" 5 0); [constructor|apply example_edge_AB]. Qed.

Lemma example_walk_AC : walk example_graph "A" "C" 8.
Proof.
  apply (walk_step _ _ "B" "C" 3 5); [apply example_walk_AB|apply example_edge_BC].
Qed.

Lemma example_safe : no_overflow example_graph "A".
Proof.
  apply no_overflow_check.
  assert (E : edge_list example_graph = [("A", "B", 5); ("A", "C", 10); ("B", "C", 3)])
    by (vm_compute; reflexivity).
  rewrite E. repeat constructor; simpl.
  - exists 0. split; [constructor|unfold INT_MAX; lia].
  - exists 0. split; [constructor|unfold INT_MAX; lia].
  - exists 5. split; [apply example_walk_AB|unfold INT_MAX; lia].
Qed.

Lemma example_run : Dijkstra 10 example_graph "A" "C" = Some example_paths.
Proof. vm_compute. reflexivity. Qed.

Lemma loadFromFile_destinations_are_keys_witness :
  (edge (loadFromFile ["A B 5"]) "A" "B" 5 /\
   map_find "B" (loadFromFile ["A B 5"]) <> None) /\
  map_find "B" (loadFromFile ["A B 5"]) = Some [] /\
  map_count "B" (loadFromFile ["A B 5"]) = 1.
Proof.
  destruct (loadFromFile_destinations_are_keys ["A B 5"]) as [_ [Hedge Honly]].
  split.
  - apply (Hedge "A B 5" "A" "B" 5); [left; reflexivity|vm_compute; reflexivity].
  - apply (Honly "B").
    + exists "A B 5", "A", 5. split; [left; reflexivity|vm_compute; reflexivity].
    + intros line s d w [<-|[]] H. vm_compute in H. inversion H. discriminate.
Defined.

Lemma Dijkstra_distance_is_minimum_witness :
  exists fuel paths d p,
    Dijkstra fuel example_graph "A" "C" = Some paths /\
    (forall fuel' paths',
        Dijkstra fuel' example_graph "A" "C" = Some paths' -> paths' = paths) /\
    map_find "C" paths = Some (d, p) /\
    shortest example_graph "A" "C" d.
Proof.
  apply (Dijkstra_distance_is_minimum example_graph "A" "C").
  - apply example_graph_ok.
  - apply example_nonneg.
  - apply example_safe.
  - vm_compute. discriminate.
  - vm_compute. discriminate.
  - exists 8. apply example_walk_AC.
Defined.

Lemma resolved_legs_sum_to_total_witness :
  exists fuel0 legs,
    (forall fuel', (fuel0 <= fuel')%nat ->
       route_legs fuel' example_graph example_paths "C" = Ret legs /\
       process_query fuel' example_graph "A" "C" =
       ([CallDijkstra "A" "C"; SaveResults (resolved_message "A" "C" 8 legs)],
        Ret tt)) /\
    is_route example_graph "A" legs "C" /\
    legs_total legs = 8.
Proof.
  apply (resolved_legs_sum_to_total example_graph "A" "C" 10 example_paths 8 "B").
  - apply example_graph_ok.
  - apply example_nonneg.
  - apply example_safe.
  - vm_compute. discriminate.
  - vm_compute. discriminate.
  - apply example_run.
  - reflexivity.
  - unfold INT_MAX. lia.
Defined.

Lemma same_node_query_is_empty_route_witness :
  exists fuel0,
    forall fuel, (fuel0 <= fuel)%nat ->
      exists paths,
        Dijkstra fuel example_graph "A" "A" = Some paths /\
        map_find "A" paths = Some (0, "") /\
        route_legs fuel example_graph paths "A" = Ret [] /\
        process_query fuel example_graph "A" "A" =
        ([CallDijkstra "A" "A"; SaveResults (resolved_message "A" "A" 0 [])],
         Ret tt).
Proof.
  apply (same_node_query_is_empty_route example_graph "A").
  - apply example_graph_ok.
  - apply example_nonneg.
  - apply example_safe.
  - vm_compute. discriminate.
Defined.

Lemma parallel_graph_safe : no_overflow parallel_graph "A".
Proof.
  apply no_overflow_check.
  assert (E : edge_list parallel_graph
              = [("A", "B", 3); ("A", "B", 7); ("B", "C", 1)])
    by (vm_compute; reflexivity).
  rewrite E. repeat constructor; simpl.
  - exists 0. split; [constructor|unfold INT_MAX; lia].
  - exists 0. split; [constructor|unfold INT_MAX; lia].
  - exists 3. split; [|unfold INT_MAX; lia].
    apply (walk_step _ _ "A" "B" 3 0); [constructor|].
    exists [("B", 3); ("B", 7)]. split; [reflexivity|simpl; auto].
Qed.

Lemma reported_leg_weight_is_committed_witness :
  (edge parallel_graph "A" "B" 7 /\ edge parallel_graph "A" "B" 3) /\
  exists fuel0 legs,
    (forall fuel', (fuel0 <= fuel')%nat ->
       route_legs fuel' parallel_graph parallel_paths "C" = Ret legs) /\
    Forall (leg_committed parallel_graph parallel_paths) legs.
Proof.
  split.
  - split; exists [("B", 3); ("B", 7)]; (split; [reflexivity|simpl; auto]).
  - apply (reported_leg_weight_is_committed
             parallel_graph "A" "C" 10 parallel_paths 4 "B").
    + apply loadFromFile_ok.
    + apply nonneg_check. vm_compute. reflexivity.
    + apply parallel_graph_safe.
    + vm_compute. discriminate.
    + vm_compute. reflexivity.
    + reflexivity.
    + unfold INT_MAX. lia.
Defined.

Lemma predecessor_walk_terminates_witness :
  exists back legs,
    (forall fuel', (List.length back <= fuel')%nat ->
       walk_back fuel' example_paths "C" [] = Ret back /\
       legs_loop fuel' example_graph (rev back) 0 = Ret legs) /\
    back <> [] /\ hd_error back = Some "C" /\ hd_error (rev back) = Some "A" /\
    size_t_sub (Z.of_nat (List.length (rev back))) 1
    = Z.of_nat (List.length back) - 1.
Proof.
  apply (predecessor_walk_terminates example_graph "A" "C" 10 example_paths 8 "B").
  - apply example_graph_ok.
  - apply example_nonneg.
  - apply example_safe.
  - vm_compute. discriminate.
  - apply example_run.
  - reflexivity.
  - unfold INT_MAX. lia.
Defined.

Lemma unknown_node_query_has_no_information_witness :
  exists fuel0,
    forall fuel, (fuel0 <= fuel)%nat ->
      process_query fuel example_graph "Z" "A" =
      ([CallDijkstra "Z" "A"; SaveResults (no_information_message "Z" "A")],
       Ret tt).
Proof.
  apply (unknown_node_query_has_no_information example_graph "Z" "A").
  left. reflexivity.
Defined.

Lemma missing_record_ends_run_quietly_witness :
  Dijkstra_loop 1 example_graph example_paths [(0, "Z")] = Some example_paths /\
  forall line lines e,
    parse_query line = Some ("Z", e) ->
    main_loop 1 example_graph (line :: lines) =
    (CallDijkstra "Z" e :: SaveResults (no_information_message "Z" e)
       :: fst (main_loop 1 example_graph lines),
     snd (main_loop 1 example_graph lines)).
Proof.
  apply (missing_record_ends_run_quietly example_graph example_paths 0 "Z" [] 0).
  reflexivity.
Defined.

Lemma unknown_source_run_is_all_unreached_witness :
  exists paths,
    Dijkstra 1 example_graph "Z" "A" = Some paths /\
    map_find "Z" paths = None /\
    forall v, map_find v paths =
              match map_find v example_graph with
              | Some _ => Some unreached
              | None => None
              end.
Proof.
  apply (unknown_source_run_is_all_unreached example_graph "Z" "A" 0).
  reflexivity.
Defined.


(* ================================================================== *)
(** * Inputs that show what the statements above cannot drop *)

Lemma long_graph_walks v L :
  walk long_graph "A" v L ->
  (v = "A" /\ L = 0) \/ (v = "B" /\ L = 2147483647) \/ (v = "C" /\ L = 2147483648).
Proof.
  induction 1 as [|u v w L _ IH He].
  - auto.
  - apply edge_in_list in He.
    assert (E : edge_list long_graph = [("A", "B", 2147483647); ("B", "C", 1)])
      by (vm_compute; reflexivity).
    rewrite E in He. simpl in He.
    destruct He as [He|[He|[]]]; inversion He; subst;
      destruct IH as [[H1 H2]|[[H1 H2]|[H1 H2]]]; try discriminate; subst.
    + right. left. auto.
    + right. right. auto.
Qed.

(** C1 does not hold without the bound on distances.  On a road of length
    [INT_MAX] followed by a road of length 1 all weights are non-negative,
    the least sum of weights from A to C is 2147483648, and the map records
    2147483647 for C. *)
Lemma long_road_distance_is_not_minimum :
  graph_ok long_graph /\ nonneg_weights long_graph /\
  map_find "A" long_graph <> None /\ map_find "C" long_graph <> None /\
  shortest long_graph "A" "C" 2147483648 /\
  (forall fuel paths,
      Dijkstra fuel long_graph "A" "C" = Some paths ->
      map_find "C" paths = Some (2147483647, "")) /\
  ~ (exists fuel paths d p,
        Dijkstra fuel long_graph "A" "C" = Some paths /\
        map_find "C" paths = Some (d, p) /\ shortest long_graph "A" "C" d).
Proof.
  assert (Hrun : forall fuel paths,
             Dijkstra fuel long_graph "A" "C" = Some paths ->
             map_find "C" paths = Some (2147483647, "")).
  { intros fuel paths H.
    assert (E : Dijkstra 10 long_graph "A" "C"
                = Some [("A", (0, "")); ("B", (2147483647, "")); ("C", (2147483647, ""))])
      by (vm_compute; reflexivity).
    rewrite (Dijkstra_fuel_irrelevant _ _ _ _ _ _ _ H E). reflexivity. }
  split; [apply loadFromFile_ok|].
  split; [apply nonneg_check; vm_compute; reflexivity|].
  split; [vm_compute; discriminate|].
  split; [vm_compute; discriminate|].
  split.
  - split.
    + apply (walk_step _ _ "B" "C" 1 2147483647).
      * apply (walk_step _ _ "A" "B" 2147483647 0); [constructor|].
        exists [("B", 2147483647)]. split; [reflexivity|simpl; auto].
      * exists [("C", 1)]. split; [reflexivity|simpl; auto].
    + intros L Hw. apply long_graph_walks in Hw.
      destruct Hw as [[H _]|[[H _]|[_ H]]]; try discriminate. lia.
  - split; [exact Hrun|].
    intros [fuel [paths [d [p [HD [Hf [Hw _]]]]]]].
    rewrite (Hrun _ _ HD) in Hf. injection Hf as <- <-.
    apply long_graph_walks in Hw.
    destruct Hw as [[H _]|[[H _]|[_ H]]]; discriminate.
Qed.

(** C2 does not hold without the bound on distances.  On two roads of length
    1073741824 in a row the query from A to C is answered as resolved with
    the total -2147483648, and its two legs add up to 2147483648. *)
Lemma far_route_legs_exceed_total :
  graph_ok far_graph /\ nonneg_weights far_graph /\
  Dijkstra 10 far_graph "A" "C" = Some far_paths /\
  map_find "C" far_paths = Some (-2147483648, "B") /\
  route_legs 10 far_graph far_paths "C"
  = Ret [("A", "B", 1073741824); ("B", "C", 1073741824)] /\
  process_query 10 far_graph "A" "C" =
  ([CallDijkstra "A" "C";
    SaveResults (resolved_message "A" "C" (-2147483648)
                   [("A", "B", 1073741824); ("B", "C", 1073741824)])], Ret tt) /\
  legs_total [("A", "B", 1073741824); ("B", "C", 1073741824)] <> -2147483648.
Proof.
  split; [apply loadFromFile_ok|].
  split; [apply nonneg_check; vm_compute; reflexivity|].
  split; [vm_compute; reflexivity|].
  split; [reflexivity|].
  split; [vm_compute; reflexivity|].
  split; [vm_compute; reflexivity|].
  vm_compute. discriminate.
Qed.

Lemma round_run fuel paths s e :
  Dijkstra fuel round_graph s e = Some paths ->
  s = "A" -> paths = round_paths.
Proof.
  intros H ->.
  assert (E : Dijkstra 10 round_graph "A" e = Some round_paths)
    by (vm_compute; reflexivity).
  eapply Dijkstra_fuel_irrelevant; eassumption.
Qed.

(** On the round trip the predecessors of A and B point at each other. *)
Lemma round_walk_back fuel :
  forall acc,
    walk_back fuel round_paths "A" acc = OutOfFuel /\
    walk_back fuel round_paths "B" acc = OutOfFuel.
Proof.
  induction fuel as [|fuel IH]; intros acc.
  - split; reflexivity.
  - split.
    + change (walk_back (S fuel) round_paths "A" acc)
        with (walk_back fuel round_paths "B" (acc ++ ["A"])%list).
      apply IH.
    + change (walk_back (S fuel) round_paths "B" acc)
        with (walk_back fuel round_paths "A" (acc ++ ["B"])%list).
      apply IH.
Qed.

(** C6 does not hold without the bound on distances.  On the round trip of
    two roads of length 1073741824, A is a key of the graph, its record ends
    as (-2147483648, B), and the query from A to A never gets an answer, with
    whatever fuel. *)
Lemma round_trip_same_node_query_hangs :
  graph_ok round_graph /\ nonneg_weights round_graph /\
  map_find "A" round_graph <> None /\
  Dijkstra 10 round_graph "A" "A" = Some round_paths /\
  map_find "A" round_paths = Some (-2147483648, "B") /\
  forall fuel,
    process_query fuel round_graph "A" "A" = ([CallDijkstra "A" "A"], OutOfFuel).
Proof.
  split; [apply loadFromFile_ok|].
  split; [apply nonneg_check; vm_compute; reflexivity|].
  split; [vm_compute; discriminate|].
  split; [vm_compute; reflexivity|].
  split; [reflexivity|].
  intros fuel. unfold process_query.
  destruct (Dijkstra fuel round_graph "A" "A") as [paths|] eqn:HD; [|reflexivity].
  rewrite (round_run _ _ _ _ HD eq_refl).
  replace (map_count "A" round_graph) with 1 by (vm_compute; reflexivity).
  change ((1 =? 0) || (1 =? 0))%bool with false. cbv iota.
  replace (map_index (0, "") "A" round_paths)
    with ((-2147483648, "B"), round_paths) by (vm_compute; reflexivity).
  cbv iota beta.
  replace (negb (fst (-2147483648, "B") =? INT_MAX)
           && (map_count "A" round_paths >? 0))%bool
    with true by (vm_compute; reflexivity).
  cbv iota.
  replace (map_index (0, "") "A" round_paths)
    with ((-2147483648, "B"), round_paths) by (vm_compute; reflexivity).
  cbv iota beta.
  unfold createResultsMessage, route_legs.
  rewrite (proj1 (round_walk_back fuel [])). reflexivity.
Qed.

(** C8 does not hold without the bound on distances.  On two roads from A to
    B, of lengths 5 and 1073741824, after a road of length 1073741824, the
    record of B is the wrapped sum of the distance of A and of the second
    length, and the leg from A to B is reported with the first. *)
Lemma twin_roads_report_other_weight :
  graph_ok twin_graph /\ nonneg_weights twin_graph /\
  Dijkstra 10 twin_graph "S" "B" = Some twin_paths /\
  map_find "A" twin_paths = Some (1073741824, "S") /\
  map_find "B" twin_paths = Some (-2147483648, "A") /\
  route_legs 10 twin_graph twin_paths "B"
  = Ret [("S", "A", 1073741824); ("A", "B", 5)] /\
  int_add 1073741824 1073741824 = -2147483648 /\
  int_add 1073741824 5 <> -2147483648 /\
  ~ Forall (leg_committed twin_graph twin_paths)
      [("S", "A", 1073741824); ("A", "B", 5)].
Proof.
  split; [apply loadFromFile_ok|].
  split; [apply nonneg_check; vm_compute; reflexivity|].
  split; [vm_compute; reflexivity|].
  split; [reflexivity|].
  split; [reflexivity|].
  split; [vm_compute; reflexivity|].
  split; [vm_compute; reflexivity|].
  split; [vm_compute; discriminate|].
  intros H. inversion H as [|? ? _ H2]; subst.
  inversion H2 as [|? ? H3 _]; subst.
  destruct H3 as [da [pa [db [edges [Ha [Hb [_ [_ [Hd _]]]]]]]]].
  vm_compute in Ha. vm_compute in Hb.
  injection Ha as <- <-. injection Hb as <-. lia.
Qed.

(** C10 does not hold without the bound on distances.  On the round trip the
    graph has every destination as a key, A is a key, the distance recorded
    for B is not the sentinel, and the walk along the predecessors from B
    never ends. *)
Lemma round_trip_predecessor_walk_loops :
  dest_closed round_graph /\ map_find "A" round_graph <> None /\
  Dijkstra 10 round_graph "A" "B" = Some round_paths /\
  map_find "B" round_paths = Some (-1073741824, "A") /\
  -1073741824 <> INT_MAX /\
  forall fuel, walk_back fuel round_paths "B" [] = OutOfFuel.
Proof.
  split; [apply loadFromFile_ok|].
  split; [vm_compute; discriminate|].
  split; [vm_compute; reflexivity|].
  split; [reflexivity|].
  split; [unfold INT_MAX; lia|].
  intros fuel. apply (round_walk_back fuel []).
Qed.

(** C3 does not hold in its second half: for the query from the unknown
    node Z the engine is called, and with no fuel for that call the query
    gets no answer at all. *)
Lemma unknown_node_query_calls_engine :
  map_find "Z" example_graph = None /\
  process_query 1 example_graph "Z" "A" =
  ([CallDijkstra "Z" "A"; SaveResults (no_information_message "Z" "A")], Ret tt) /\
  process_query 0 example_graph "Z" "A" = ([CallDijkstra "Z" "A"], OutOfFuel).
Proof.
  split; [reflexivity|]. split; vm_compute; reflexivity.
Qed.

(** C4 does not hold with a failure of the batch: the run from the unknown
    node Z leaves the loop at once and returns a map, its query gets the
    message of the unknown nodes, and the query after it is answered. *)
Lemma batch_goes_on_after_missing_record :
  map_find "Z" example_graph = None /\
  Dijkstra 10 example_graph "Z" "A"
  = Some [("A", unreached); ("B", unreached); ("C", unreached)] /\
  main 10 example_roads ["Z A"; "A C"] =
  ([CallDijkstra "Z" "A"; SaveResults (no_information_message "Z" "A");
    CallDijkstra "A" "C";
    SaveResults (resolved_message "A" "C" 8 [("A", "B", 5); ("B", "C", 3)])],
   Ret tt).
Proof.
  split; [reflexivity|]. split; vm_compute; reflexivity.
Qed.

(** C9 does not hold with an entry set apart: in the map of the run from the
    unknown source Z every entry is the unreached record, and Z has no
    entry. *)
Lemma unknown_source_map_has_no_other_entry :
  map_find "Z" example_graph = None /\
  exists paths,
    Dijkstra 10 example_graph "Z" "A" = Some paths /\
    map_find "Z" paths = None /\
    ~ (exists v r, map_find v paths = Some r /\ r <> unreached).
Proof.
  split; [reflexivity|].
  exists [("A", unreached); ("B", unreached); ("C", unreached)].
  split; [vm_compute; reflexivity|]. split; [reflexivity|].
  intros [v [r [Hf Hr]]]. simpl in Hf.
  destruct (String.eqb v "A"); [congruence|].
  destruct (String.eqb v "B"); [congruence|].
  destruct (String.eqb v "C"); [congruence|discriminate].
Qed.

(* ================================================================== *)
(** * More on the loader *)

Lemma take_word_no_space s : has_space (fst (take_word s)) = false.
Proof.
  induction s as [|c s IH]; simpl; [reflexivity|].
  destruct (isspace c) eqn:Ec; simpl; [reflexivity|].
  destruct (take_word s) as [w r]. simpl in *. rewrite Ec, IH. reflexivity.
Qed.

Lemma read_word_is_word s w r : read_word s = Some (w, r) -> is_word w.
Proof.
  intros H. split; [eapply read_word_nonempty; exact H|].
  unfold read_word in H.
  pose proof (take_word_no_space (skipws s)) as Hn.
  destruct (take_word (skipws s)) as [w' r']. simpl in Hn.
  destruct w'; [discriminate|]. inversion H; subst. exact Hn.
Qed.

Lemma read_int_range s v r : read_int s = Some (v, r) -> INT_MIN <= v <= INT_MAX.
Proof.
  unfold read_int.
  destruct (match skipws s with
            | String "-"%char r0 => (true, r0)
            | String "+"%char r0 => (false, r0)
            | _ => (false, skipws s)
            end) as [neg s2].
  destruct (starts_with_digit s2); [|discriminate].
  destruct (take_digits s2 0) as [n rest].
  destruct ((INT_MIN <=? (if neg then - n else n))
            && ((if neg then - n else n) <=? INT_MAX))%bool eqn:E; [|discriminate].
  intros H. inversion H; subst.
  apply andb_true_iff in E. destruct E as [E1 E2].
  apply Z.leb_le in E1. apply Z.leb_le in E2. lia.
Qed.

Lemma parse_edge_fields line s d w :
  parse_edge line = Some (s, d, w) ->
  is_word s /\ is_word d /\ INT_MIN <= w <= INT_MAX.
Proof.
  unfold parse_edge.
  destruct (read_word line) as [[s' r1]|] eqn:E1; [|discriminate].
  destruct (read_word r1) as [[d' r2]|] eqn:E2; [|discriminate].
  destruct (read_int r2) as [[w' r3]|] eqn:E3; [|discriminate].
  intros H; inversion H; subst.
  split; [eapply read_word_is_word; eassumption|].
  split; [eapply read_word_is_word; eassumption|].
  eapply read_int_range; eassumption.
Qed.

(** The edges and the keys after [add_edge]. *)
Lemma add_edge_edges g s d w u v x :
  edge (add_edge g s d w) u v x <-> edge g u v x \/ (u, v, x) = (s, d, w).
Proof.
  split.
  - intros [edges [Hu Hin]]. rewrite add_edge_find in Hu.
    destruct (String.eqb u s) eqn:Eus.
    + apply String.eqb_eq in Eus. subst u. inversion Hu; subst edges.
      apply (In_set_insert edge_cmp edge_cmp_eq) in Hin.
      destruct Hin as [Hin|Hin]; [right; congruence|].
      destruct (map_find s g) as [e|] eqn:Es; [|contradiction].
      left. exists e. auto.
    + destruct (map_find u g) as [e|] eqn:Eu.
      * inversion Hu; subst e. left. exists edges. auto.
      * destruct (String.eqb u d); [|discriminate].
        inversion Hu; subst edges. contradiction.
  - intros [H|H].
    + apply add_edge_keeps_edge, H.
    + inversion H; subst. apply add_edge_has_edge.
Qed.

Lemma add_edge_keys g s d w k :
  map_find k (add_edge g s d w) <> None <->
  map_find k g <> None \/ k = s \/ k = d.
Proof.
  rewrite add_edge_find. destruct (String.eqb k s) eqn:Eks.
  - apply String.eqb_eq in Eks. split; [auto|discriminate].
  - apply String.eqb_neq in Eks. destruct (map_find k g) eqn:Ek.
    + split; [intros _; left; discriminate|discriminate].
    + destruct (String.eqb k d) eqn:Ekd.
      * apply String.eqb_eq in Ekd. split; [auto|discriminate].
      * apply String.eqb_neq in Ekd. split; [congruence|].
        intros [H|[H|H]]; congruence.
Qed.

Lemma fold_load_edges lines :
  forall g u v x,
    edge (fold_left load_line lines g) u v x <->
    edge g u v x \/ described lines u v x.
Proof.
  induction lines as [|l lines IH]; simpl; intros g u v x.
  - split; [auto|]. intros [H|[line [[] _]]]. exact H.
  - rewrite IH. unfold load_line, described.
    destruct (parse_edge l) as [[[s d] w]|] eqn:E.
    + rewrite add_edge_edges. split.
      * intros [[H|H]|[line [Hin Hp]]].
        -- left. exact H.
        -- right. exists l. split; [left; reflexivity|]. congruence.
        -- right. exists line. split; [right; exact Hin|exact Hp].
      * intros [H|[line [[->|Hin] Hp]]].
        -- left. left. exact H.
        -- left. right. congruence.
        -- right. exists line. auto.
    + split.
      * intros [H|[line [Hin Hp]]]; [left; exact H|].
        right. exists line. split; [right; exact Hin|exact Hp].
      * intros [H|[line [[->|Hin] Hp]]]; [left; exact H|congruence|].
        right. exists line. auto.
Qed.

Lemma fold_load_keys lines :
  forall g k,
    map_find k (fold_left load_line lines g) <> None <->
    map_find k g <> None \/
    exists s d w, described lines s d w /\ (k = s \/ k = d).
Proof.
  induction lines as [|l lines IH]; simpl; intros g k.
  - split; [auto|]. intros [H|[s [d [w [[line [[] _]] _]]]]]. exact H.
  - rewrite IH. unfold load_line, described.
    destruct (parse_edge l) as [[[s d] w]|] eqn:E.
    + rewrite add_edge_keys. split.
      * intros [[H|H]|[s' [d' [w' [[line [Hin Hp]] Hk]]]]].
        -- left. exact H.
        -- right. exists s, d, w. split; [|exact H].
           exists l. split; [left; reflexivity|exact E].
        -- right. exists s', d', w'. split; [|exact Hk].
           exists line. split; [right; exact Hin|exact Hp].
      * intros [H|[s' [d' [w' [[line [[->|Hin] Hp]] Hk]]]]].
        -- left. left. exact H.
        -- left. right. rewrite E in Hp. inversion Hp; subst. exact Hk.
        -- right. exists s', d', w'. split; [|exact Hk]. exists line. auto.
    + split.
      * intros [H|[s' [d' [w' [[line [Hin Hp]] Hk]]]]]; [left; exact H|].
        right. exists s', d', w'. split; [|exact Hk].
        exists line. split; [right; exact Hin|exact Hp].
      * intros [H|[s' [d' [w' [[line [[->|Hin] Hp]] Hk]]]]];
          [left; exact H|congruence|].
        right. exists s', d', w'. split; [|exact Hk]. exists line. auto.
Qed.

(** X1: the graph holds exactly what the lines describe: its edges are the
    triples of the lines that parse, and its keys are their sources and
    destinations. *)
Theorem loadFromFile_holds_the_described_edges (lines : list string) :
  (forall s d w,
      edge (loadFromFile lines) s d w <-> described lines s d w) /\
  (forall k,
      map_find k (loadFromFile lines) <> None <->
      exists s d w, described lines s d w /\ (k = s \/ k = d)).
Proof.
  split.
  - intros s d w. unfold loadFromFile. rewrite fold_load_edges.
    split; [|auto]. intros [[e [H _]]|H]; [discriminate|exact H].
  - intros k. unfold loadFromFile. rewrite fold_load_keys.
    split; [|auto]. intros [H|H]; [simpl in H; congruence|exact H].
Qed.

Lemma map_set_keys {V} k (v : V) m :
  map fst (map_set k v m) = set_insert String.compare k (map fst m).
Proof.
  induction m as [|[k' v'] m IH]; simpl; [reflexivity|].
  destruct (String.compare k k') eqn:E; simpl.
  - apply string_compare_eq in E. subst. reflexivity.
  - reflexivity.
  - rewrite IH. reflexivity.
Qed.

Lemma map_set_keys_sorted {V} k (v : V) m :
  keys_sorted m -> keys_sorted (map_set k v m).
Proof.
  unfold keys_sorted. rewrite map_set_keys.
  apply (set_insert_sorted String.compare string_compare_eq
           string_compare_antisym string_compare_trans).
Qed.

Lemma map_index_keys_sorted {V} (d : V) k m :
  keys_sorted m -> keys_sorted (snd (map_index d k m)).
Proof.
  unfold map_index. destruct (map_find k m); simpl; [auto|].
  apply map_set_keys_sorted.
Qed.

Lemma map_find_in_keys {V} k (m : list (string * V)) v :
  map_find k m = Some v -> In k (map fst m).
Proof.
  intros H. apply map_find_In in H.
  apply (in_map fst m (k, v) H).
Qed.

Lemma keys_sorted_head_absent {V} k (v : V) m :
  keys_sorted ((k, v) :: m) -> map_find k m = None.
Proof.
  intros Hs. destruct (map_find k m) as [v'|] eqn:E; [|reflexivity].
  exfalso. apply map_find_in_keys in E.
  apply (lt_of_irrefl String.compare string_compare_eq k).
  apply (sorted_head_least String.compare k (map fst m) k Hs E).
Qed.

(** A map has one representation: two maps in key order with the same
    lookups are the same list. *)
Lemma map_ext {V} (m1 : list (string * V)) :
  forall m2, keys_sorted m1 -> keys_sorted m2 ->
             (forall k, map_find k m1 = map_find k m2) -> m1 = m2.
Proof.
  induction m1 as [|[k1 v1] m1 IH]; intros [|[k2 v2] m2] H1 H2 Hf.
  - reflexivity.
  - specialize (Hf k2). simpl in Hf. rewrite String.eqb_refl in Hf. discriminate.
  - specialize (Hf k1). simpl in Hf. rewrite String.eqb_refl in Hf. discriminate.
  - assert (Hk : k1 = k2).
    { destruct (string_dec k1 k2) as [E|Hne]; [exact E|exfalso].
      pose proof (Hf k1) as Ha. pose proof (Hf k2) as Hb. simpl in Ha, Hb.
      rewrite String.eqb_refl in Ha, Hb.
      assert (E12 : String.eqb k1 k2 = false) by (apply String.eqb_neq; exact Hne).
      assert (E21 : String.eqb k2 k1 = false) by (apply String.eqb_neq; congruence).
      rewrite E12 in Ha. rewrite E21 in Hb.
      symmetry in Ha. apply map_find_in_keys in Ha. apply map_find_in_keys in Hb.
      apply (lt_of_irrefl String.compare string_compare_eq k1).
      eapply string_compare_trans.
      - apply (sorted_head_least String.compare k1 (map fst m1) k2 H1 Hb).
      - apply (sorted_head_least String.compare k2 (map fst m2) k1 H2 Ha). }
    subst k2.
    assert (Hv : v1 = v2).
    { specialize (Hf k1). simpl in Hf. rewrite String.eqb_refl in Hf. congruence. }
    subst v2. f_equal. apply IH.
    + unfold keys_sorted in *. simpl in H1. inversion H1; assumption.
    + unfold keys_sorted in *. simpl in H2. inversion H2; assumption.
    + intros k. destruct (String.eqb k k1) eqn:E.
      * apply String.eqb_eq in E. subst k.
        rewrite (keys_sorted_head_absent _ _ _ H1).
        rewrite (keys_sorted_head_absent _ _ _ H2). reflexivity.
      * specialize (Hf k). simpl in Hf. rewrite E in Hf. exact Hf.
Qed.

Lemma add_edge_keys_sorted g s d w :
  keys_sorted g -> keys_sorted (add_edge g s d w).
Proof.
  intros H. unfold add_edge.
  destruct (map_index [] s g) as [edges g1] eqn:E1.
  assert (Hg1 : keys_sorted g1).
  { replace g1 with (snd (map_index [] s g)) by (rewrite E1; reflexivity).
    apply map_index_keys_sorted, H. }
  apply map_index_keys_sorted, map_set_keys_sorted, Hg1.
Qed.

Lemma fold_load_keys_sorted lines :
  forall g, keys_sorted g -> keys_sorted (fold_left load_line lines g).
Proof.
  induction lines as [|l lines IH]; simpl; intros g Hg; [exact Hg|].
  apply IH. unfold load_line.
  destruct (parse_edge l) as [[[s d] w]|]; [|exact Hg].
  apply add_edge_keys_sorted, Hg.
Qed.

Lemma loadFromFile_keys_sorted lines : keys_sorted (loadFromFile lines).
Proof. apply fold_load_keys_sorted. constructor. Qed.

(** X3: the graph depends only on the set of edges the lines describe, not
    on the order of the lines, on repeated lines or on the lines that do not
    parse: two files that describe the same edges load as the same graph. *)
Theorem loadFromFile_depends_on_described_edges (lines lines' : list string) :
  (forall s d w, described lines s d w <-> described lines' s d w) ->
  loadFromFile lines = loadFromFile lines'.
Proof.
  intros Hsame.
  assert (Hedge : forall s d w,
             edge (loadFromFile lines) s d w <-> edge (loadFromFile lines') s d w).
  { intros s d w. unfold loadFromFile. rewrite !fold_load_edges.
    split; (intros [[e [H _]]|H]; [discriminate|right; apply Hsame, H]). }
  assert (Hkey : forall k,
             map_find k (loadFromFile lines) <> None <->
             map_find k (loadFromFile lines') <> None).
  { intros k. unfold loadFromFile. rewrite !fold_load_keys.
    split; (intros [H|[s [d [w [H Hk]]]]]; [simpl in H; congruence|]);
      right; exists s, d, w; (split; [apply Hsame, H|exact Hk]). }
  apply map_ext; try apply loadFromFile_keys_sorted.
  intros k.
  destruct (map_find k (loadFromFile lines)) as [e|] eqn:E;
    destruct (map_find k (loadFromFile lines')) as [e'|] eqn:E'.
  - f_equal.
    apply (sorted_unique edge_cmp edge_cmp_eq edge_cmp_trans).
    + apply (ok_sorted _ (loadFromFile_ok lines) k e E).
    + apply (ok_sorted _ (loadFromFile_ok lines') k e' E').
    + intros [v x]. split; intros Hin.
      * assert (He : edge (loadFromFile lines') k v x)
          by (apply Hedge; exists e; auto).
        destruct He as [e0 [H0 Hin0]]. congruence.
      * assert (He : edge (loadFromFile lines) k v x)
          by (apply Hedge; exists e'; auto).
        destruct He as [e0 [H0 Hin0]]. congruence.
  - exfalso. apply (proj1 (Hkey k)); [congruence|exact E'].
  - exfalso. apply (proj2 (Hkey k)); [congruence|exact E].
  - reflexivity.
Qed.

(* ================================================================== *)
(** * More on the engine *)

(** X4: the loop of lines 108-126 ends on every graph and from every start,
    whatever the weights and the cycles: some amount of fuel is enough, and
    every larger amount gives the same map. *)
Theorem Dijkstra_always_ends (g : Graph) (s e : string) :
  exists fuel0 paths,
    forall fuel, (fuel0 <= fuel)%nat -> Dijkstra fuel g s e = Some paths.
Proof.
  destruct (Dijkstra_terminates g s e) as [paths HD].
  exists (enough_fuel g s), paths. intros fuel Hfuel.
  eapply Dijkstra_more_fuel; eassumption.
Qed.

Lemma map_index_keys {V} (d : V) k m v :
  map_find v (snd (map_index d k m)) <> None <-> map_find v m <> None \/ v = k.
Proof.
  rewrite map_index_find. destruct (map_find v m) eqn:E.
  - split; [intros _; left; discriminate|discriminate].
  - destruct (String.eqb v k) eqn:Ev.
    + apply String.eqb_eq in Ev. split; [auto|discriminate].
    + apply String.eqb_neq in Ev. split; [congruence|]. intros [H|H]; congruence.
Qed.

Lemma relax_same_keys g current all :
  dest_closed g -> map_find current g = Some all ->
  forall todo paths queue,
    (forall e, In e todo -> In e all) ->
    same_keys g paths -> same_keys g (fst (relax current todo paths queue)).
Proof.
  intros Hc Hcur. induction todo as [|[v w] todo IH]; simpl; intros paths queue Hsub Hk.
  - exact Hk.
  - assert (Hv : map_find v g <> None).
    { apply (Hc current v w). exists all. split; [exact Hcur|].
      apply Hsub. left. reflexivity. }
    assert (Hsub' : forall e, In e todo -> In e all)
      by (intros e He; apply Hsub; right; exact He).
    destruct (map_index (0, "") current paths) as [rc paths1] eqn:E1.
    assert (Hk1 : same_keys g paths1).
    { replace paths1 with (snd (map_index (0, "") current paths))
        by (rewrite E1; reflexivity).
      intros x. rewrite map_index_keys. split.
      - intros [H| ->]; [apply Hk, H|congruence].
      - intros H. left. apply Hk, H. }
    destruct (map_index (0, "") v paths1) as [rn paths2] eqn:E2.
    assert (Hk2 : same_keys g paths2).
    { replace paths2 with (snd (map_index (0, "") v paths1))
        by (rewrite E2; reflexivity).
      intros x. rewrite map_index_keys. split.
      - intros [H| ->]; [apply Hk1, H|exact Hv].
      - intros H. left. apply Hk1, H. }
    destruct (int_add (fst rc) w <? fst rn).
    + apply IH; [exact Hsub'|].
      intros x. rewrite map_find_set. destruct (String.eqb x v) eqn:Ex.
      * apply String.eqb_eq in Ex. subst x. split; [intros _; exact Hv|discriminate].
      * apply Hk2.
    + apply IH; assumption.
Qed.

Lemma Dijkstra_loop_same_keys g :
  dest_closed g ->
  forall fuel paths queue paths',
    same_keys g paths ->
    Dijkstra_loop fuel g paths queue = Some paths' -> same_keys g paths'.
Proof.
  intros Hc. induction fuel as [|fuel IH]; intros paths queue paths' Hk H.
  - destruct queue as [|[k c] q]; simpl in H; [|discriminate].
    inversion H; subst. exact Hk.
  - destruct queue as [|[k c] q]; simpl in H.
    + inversion H; subst. exact Hk.
    + destruct (map_find c g) as [edges|] eqn:Ec.
      * destruct (relax c edges paths q) as [p1 q1] eqn:Er.
        apply (IH p1 q1); [|exact H].
        replace p1 with (fst (relax c edges paths q)) by (rewrite Er; reflexivity).
        apply (relax_same_keys g c edges Hc Ec); auto.
      * inversion H; subst. exact Hk.
Qed.

(** X5: on a graph in which every destination is a key, the map a run
    returns has a record for exactly the keys of the graph, from whatever
    start and with whatever weights: [operator[]] never creates a record. *)
Theorem Dijkstra_keeps_the_keys (g : Graph) (s e : string) (fuel : nat)
  (paths : Paths) :
  dest_closed g -> Dijkstra fuel g s e = Some paths -> same_keys g paths.
Proof.
  intros Hc HD. unfold Dijkstra in HD.
  apply (Dijkstra_loop_same_keys g Hc _ _ _ _) with (2 := HD).
  intros v. rewrite init_paths_find. destruct (map_find v g); split; congruence.
Qed.

Lemma relax_paths_ok g current all :
  map_find current g = Some all ->
  forall todo paths queue,
    (forall e, In e todo -> In e all) ->
    paths_ok g paths -> paths_ok g (fst (relax current todo paths queue)).
Proof.
  intros Hcur. induction todo as [|[v w] todo IH]; simpl; intros paths queue Hsub Hok.
  - exact Hok.
  - assert (Hsub' : forall e, In e todo -> In e all)
      by (intros e He; apply Hsub; right; exact He).
    assert (Hdef : forall k (m : Paths), paths_ok g m ->
                     paths_ok g (snd (map_index (0, "") k m))).
    { intros k m Hm x r. rewrite map_index_find.
      destruct (map_find x m) as [r'|] eqn:Ex.
      - intros H. inversion H; subst. apply (Hm x r Ex).
      - destruct (String.eqb x k); [|discriminate].
        intros H. inversion H; subst. split; simpl.
        + unfold INT_MIN, INT_MAX. lia.
        + left. reflexivity. }
    destruct (map_index (0, "") current paths) as [rc paths1] eqn:E1.
    assert (H1 : paths_ok g paths1).
    { replace paths1 with (snd (map_index (0, "") current paths))
        by (rewrite E1; reflexivity). apply Hdef, Hok. }
    destruct (map_index (0, "") v paths1) as [rn paths2] eqn:E2.
    assert (H2 : paths_ok g paths2).
    { replace paths2 with (snd (map_index (0, "") v paths1))
        by (rewrite E2; reflexivity). apply Hdef, H1. }
    destruct (int_add (fst rc) w <? fst rn).
    + apply IH; [exact Hsub'|].
      intros x r. rewrite map_find_set. destruct (String.eqb x v) eqn:Ex.
      * apply String.eqb_eq in Ex. subst x. intros H. inversion H; subst.
        split; simpl.
        -- apply wrap_range.
        -- right. exists w. exists all. split; [exact Hcur|].
           apply Hsub. left. reflexivity.
      * apply H2.
    + apply IH; assumption.
Qed.

Lemma Dijkstra_loop_paths_ok g :
  forall fuel paths queue paths',
    paths_ok g paths ->
    Dijkstra_loop fuel g paths queue = Some paths' -> paths_ok g paths'.
Proof.
  induction fuel as [|fuel IH]; intros paths queue paths' Hok H.
  - destruct queue as [|[k c] q]; simpl in H; [|discriminate].
    inversion H; subst. exact Hok.
  - destruct queue as [|[k c] q]; simpl in H.
    + inversion H; subst. exact Hok.
    + destruct (map_find c g) as [edges|] eqn:Ec.
      * destruct (relax c edges paths q) as [p1 q1] eqn:Er.
        apply (IH p1 q1); [|exact H].
        replace p1 with (fst (relax c edges paths q)) by (rewrite Er; reflexivity).
        apply (relax_paths_ok g c edges Ec); auto.
      * inversion H; subst. exact Hok.
Qed.

(** X6: in the map of any run, on any graph, every distance is within the
    range of [int], and every predecessor that is recorded for a node has an
    edge of the graph to that node. *)
Theorem Dijkstra_records_follow_edges (g : Graph) (s e : string) (fuel : nat)
  (paths : Paths) (v : string) (d : Z) (p : string) :
  Dijkstra fuel g s e = Some paths ->
  map_find v paths = Some (d, p) ->
  INT_MIN <= d <= INT_MAX /\ (p = "" \/ exists w, edge g p v w).
Proof.
  intros HD Hf. unfold Dijkstra in HD.
  assert (Hinit : paths_ok g (init_paths g s)).
  { intros x r. rewrite init_paths_find.
    destruct (map_find x g); [|discriminate].
    destruct (String.eqb x s); intros H; inversion H; subst; split; simpl;
      try (left; reflexivity); unfold INT_MIN, INT_MAX; lia. }
  apply (Dijkstra_loop_paths_ok g _ _ _ _ Hinit HD v (d, p) Hf).
Qed.

Lemma process_query_impossible g s t fuel paths p :
  Dijkstra fuel g s t = Some paths ->
  map_find s g <> None -> map_find t g <> None ->
  map_find t paths = Some (INT_MAX, p) ->
  process_query fuel g s t =
  ([CallDijkstra s t; SaveResults (impossible_message s t)], Ret tt).
Proof.
  intros HD Hs Ht Hf. unfold process_query. rewrite HD.
  rewrite (map_count_key s g Hs), (map_count_key t g Ht).
  change ((1 =? 0) || (1 =? 0))%bool with false. cbv iota.
  rewrite (map_index_present _ _ _ _ Hf). cbv iota beta. cbn [fst].
  rewrite Z.eqb_refl. reflexivity.
Qed.

(** X7: on a graph with non-negative weights and no overflow from the
    origin, a query between two keys of the graph that no path shorter than
    [INT_MAX] joins, and so every query between keys that no path joins, is
    answered with "Trasa niemozliwa do wyznaczenia", and the record of the
    destination is the unreached one. *)
Theorem unreachable_query_is_impossible (g : Graph) (s t : string) :
  graph_ok g -> nonneg_weights g -> no_overflow g s ->
  map_find s g <> None -> map_find t g <> None ->
  (forall L, walk g s t L -> INT_MAX <= L) ->
  exists fuel0 paths,
    forall fuel, (fuel0 <= fuel)%nat ->
      Dijkstra fuel g s t = Some paths /\
      map_find t paths = Some unreached /\
      process_query fuel g s t =
      ([CallDijkstra s t; SaveResults (impossible_message s t)], Ret tt).
Proof.
  intros Hok Hn Hsafe Hs Ht Hfar.
  destruct (Dijkstra_terminates g s t) as [paths HD].
  destruct (Dijkstra_result g s t _ paths Hok Hn Hsafe Hs HD) as [S [c I]].
  assert (Hf : map_find t paths = Some unreached).
  { assert (Hk : map_find t paths <> None)
      by (apply (inv_keys _ _ _ _ _ _ _ I); exact Ht).
    destruct (map_find t paths) as [[d p]|] eqn:E; [|congruence].
    destruct (inv_rec _ _ _ _ _ _ _ I t d p E) as [[-> ->]|[Hd [Hw _]]];
      [reflexivity|].
    specialize (Hfar d Hw). lia. }
  exists (enough_fuel g s), paths. intros fuel Hfuel.
  assert (HD' : Dijkstra fuel g s t = Some paths)
    by (eapply Dijkstra_more_fuel; eassumption).
  split; [exact HD'|]. split; [exact Hf|].
  apply (process_query_impossible g s t fuel paths ""); assumption.
Qed.

(** X8: on a graph with non-negative weights and no overflow from the
    origin, the legs reconstructed for a destination whose distance is not
    the sentinel are a route of least total: they follow edges of the graph
    from the origin to the destination, and no such sequence of edges has a
    smaller sum of weights. *)
Theorem reconstructed_route_is_least (g : Graph) (s t : string)
  (fuel : nat) (paths : Paths) (d : Z) (p : string) :
  graph_ok g -> nonneg_weights g -> no_overflow g s ->
  map_find s g <> None ->
  Dijkstra fuel g s t = Some paths ->
  map_find t paths = Some (d, p) -> d <> INT_MAX ->
  exists fuel0 legs,
    (forall fuel', (fuel0 <= fuel')%nat -> route_legs fuel' g paths t = Ret legs) /\
    is_route g s legs t /\
    forall legs', is_route g s legs' t -> legs_total legs <= legs_total legs'.
Proof.
  intros Hok Hn Hsafe Hs HD Hf Hd.
  destruct (Dijkstra_result g s t _ paths Hok Hn Hsafe Hs HD) as [S [c I]].
  destruct (route_legs_correct g s Hok S c paths I t d p Hf Hd)
    as [back [legs [_ [_ [Hrun [Hroute [Htotal _]]]]]]].
  exists (List.length back), legs.
  split; [intros fuel' Hfuel; apply (Hrun fuel' Hfuel)|].
  split; [exact Hroute|].
  intros legs' Hr'. apply is_route_walk in Hr'.
  destruct (final_lower g s Hok Hn S c paths I t _ Hr') as [d' [p' [Hf' Hle]]].
  rewrite Hf in Hf'. injection Hf' as <- <-. lia.
Qed.

(* ================================================================== *)
(** * More on the reconstruction *)

Lemma walk_back_chain paths :
  forall fuel current acc path,
    walk_back fuel paths current acc = Ret path ->
    exists chain, path = (acc ++ chain)%list /\ back_linked paths current chain.
Proof.
  induction fuel as [|fuel IH]; intros current acc path H.
  - destruct current; simpl in H; [|discriminate].
    inversion H; subst. exists []. rewrite app_nil_r. simpl. auto.
  - destruct current as [|a current].
    + simpl in H. inversion H; subst. exists []. rewrite app_nil_r. simpl. auto.
    + simpl in H.
      destruct (map_find (String a current) paths) as [r|] eqn:E; [|discriminate].
      destruct (IH _ _ _ H) as [chain [Hp Hl]].
      exists (String a current :: chain). split.
      * rewrite Hp, <- app_assoc. reflexivity.
      * simpl. split; [reflexivity|]. split; [discriminate|].
        exists r. auto.
Qed.

Lemma legs_of_snoc_inv g p v :
  forall l legs,
    legs_of g (l ++ [p; v])%list = Ret legs ->
    exists legs0 edges,
      map_find p g = Some edges /\
      legs_of g (l ++ [p])%list = Ret legs0 /\
      legs = (legs0 ++ [(p, v, first_match v edges)])%list.
Proof.
  induction l as [|a l IH]; intros legs H.
  - simpl app in *. rewrite legs_of_cons in H.
    destruct (map_find p g) as [edges|]; [|discriminate].
    simpl in H. inversion H; subst. exists [], edges. auto.
  - assert (Hl : exists b rest, (l ++ [p])%list = b :: rest)
      by (destruct l; simpl; eauto).
    destruct Hl as [b [rest Hl]].
    assert (Hl2 : (l ++ [p; v])%list = b :: (rest ++ [v])%list).
    { change [p; v] with ([p] ++ [v])%list. rewrite app_assoc, Hl. reflexivity. }
    simpl app in *. rewrite Hl2, legs_of_cons in H.
    destruct (map_find a g) as [ea|] eqn:Ea; [|discriminate].
    rewrite <- Hl2 in H.
    destruct (legs_of g (l ++ [p; v])%list) as [r| |] eqn:E; try discriminate.
    simpl in H. inversion H; subst.
    destruct (IH r eq_refl) as [legs0 [edges [Hp [H0 Hr]]]].
    exists ((a, b, first_match b ea) :: legs0), edges.
    split; [exact Hp|]. split.
    + rewrite Hl, legs_of_cons, Ea. rewrite <- Hl, H0. reflexivity.
    + rewrite Hr. reflexivity.
Qed.

Lemma follows_snoc paths first legs y x w d :
  follows paths first legs y -> map_find x paths = Some (d, y) ->
  follows paths first (legs ++ [(y, x, w)])%list x.
Proof.
  revert first. induction legs as [|[[a b] w'] legs IH]; simpl; intros first H Hx.
  - subst. split; [reflexivity|]. split; [exists d; exact Hx|reflexivity].
  - destruct H as [Ha [Hb Hr]]. split; [exact Ha|]. split; [exact Hb|].
    apply IH; assumption.
Qed.

Lemma back_linked_legs g paths :
  forall chain current legs,
    back_linked paths current chain -> chain <> [] ->
    legs_of g (rev chain) = Ret legs ->
    exists first d,
      map_find first paths = Some (d, "") /\
      follows paths first legs current /\
      Forall (leg_scanned g) legs.
Proof.
  induction chain as [|x chain IH]; intros current legs Hl Hne Hlegs; [congruence|].
  simpl in Hl. destruct Hl as [-> [Hcur [[d p] [Hf Hrest]]]]. simpl in Hrest.
  destruct chain as [|y chain].
  - simpl in Hrest. subst p. simpl in Hlegs. inversion Hlegs; subst.
    exists current, d. split; [exact Hf|]. split; [reflexivity|constructor].
  - assert (Hy : y = p) by (simpl in Hrest; tauto). subst y.
    change (rev (current :: p :: chain))
      with ((rev chain ++ [p]) ++ [current])%list in Hlegs.
    rewrite <- app_assoc in Hlegs. simpl app in Hlegs.
    destruct (legs_of_snoc_inv g p current _ _ Hlegs)
      as [legs0 [edges [Hp [H0 Hr]]]].
    destruct (IH p legs0 Hrest ltac:(discriminate) H0)
      as [first [d0 [Hfirst [Hfol Hsc]]]].
    exists first, d0. split; [exact Hfirst|]. subst legs. split.
    + eapply follows_snoc; eassumption.
    + apply Forall_app. split; [exact Hsc|].
      constructor; [|constructor]. exists edges. auto.
Qed.

(** X9: whatever the map and the graph, when the reconstruction for a
    non-empty destination ends without failure its legs run along the
    recorded predecessors: each leg goes from the predecessor recorded for a
    node to that node, each starts where the one before it ends, the last
    ends at the destination, the first starts at a node with no predecessor,
    and the weight of each is the one the scan of the edges of its first node
    finds. *)
Theorem route_legs_run_along_predecessors (g : Graph) (paths : Paths)
  (end_ : string) (fuel : nat) (legs : list leg) :
  end_ <> "" ->
  route_legs fuel g paths end_ = Ret legs ->
  exists first d,
    map_find first paths = Some (d, "") /\
    follows paths first legs end_ /\
    Forall (leg_scanned g) legs.
Proof.
  intros Hne H. unfold route_legs in H.
  destruct (walk_back fuel paths end_ []) as [path| |] eqn:Ew; try discriminate.
  simpl in H.
  destruct (walk_back_chain paths _ _ _ _ Ew) as [chain [Hp Hl]].
  simpl in Hp. subst path.
  assert (Hc : chain <> []).
  { destruct chain; [simpl in Hl; congruence|discriminate]. }
  apply (back_linked_legs g paths chain end_ legs Hl Hc).
  rewrite <- (legs_loop_from_start g (rev chain) (Nat.max fuel (List.length chain))).
  - eapply legs_loop_more_fuel; [exact H|lia].
  - destruct chain; [congruence|]. simpl. intros E.
    apply app_eq_nil in E. destruct E; discriminate.
  - rewrite length_rev. lia.
Qed.

(** X10: the two ways [createResultsMessage] fails on its arguments.  For a
    destination without a record in the map the first [at] of line 150
    raises [std::out_of_range]; for the empty destination no node is
    collected, [path.size() - 1] wraps around and the loop of line 155 reads
    past the end of the empty vector. *)
Theorem createResultsMessage_failures (g : Graph) (paths : Paths)
  (start end_ : string) (total : Z) (fuel : nat) :
  (end_ <> "" -> map_find end_ paths = None ->
   createResultsMessage (S fuel) start end_ total g paths = Raise OutOfRange) /\
  createResultsMessage (S fuel) start "" total g paths = Raise OutOfBounds.
Proof.
  split.
  - intros Hne Hf. unfold createResultsMessage, route_legs.
    destruct end_ as [|a end_]; [congruence|].
    simpl. rewrite Hf. reflexivity.
  - reflexivity.
Qed.

(** X11: the scan of lines 158-165 returns the weight of an edge to the next
    node when the edge set has one, the lightest of them when the set is in
    the order of [std::set], and 0 when it has none. *)
Theorem first_match_finds_lightest (nextCity : string)
  (edges : list (string * Z)) :
  ((exists w, In (nextCity, w) edges) ->
   In (nextCity, first_match nextCity edges) edges) /\
  (sorted edge_cmp edges ->
   forall w, In (nextCity, w) edges -> first_match nextCity edges <= w) /\
  ((forall w, ~ In (nextCity, w) edges) -> first_match nextCity edges = 0).
Proof.
  split; [|split].
  - induction edges as [|[b x] edges IH]; simpl; intros [w Hin]; [contradiction|].
    destruct (String.eqb b nextCity) eqn:Eb.
    + apply String.eqb_eq in Eb. subst b. left. reflexivity.
    + right. apply IH. destruct Hin as [Hin|Hin]; [|exists w; exact Hin].
      inversion Hin; subst. rewrite String.eqb_refl in Eb. discriminate.
  - unfold sorted. induction edges as [|[b x] edges IH]; simpl; intros Hs w Hin;
      [contradiction|].
    inversion Hs as [|? ? Hs' Hall]; subst.
    destruct (String.eqb b nextCity) eqn:Eb.
    + apply String.eqb_eq in Eb. subst b.
      destruct Hin as [Hin|Hin]; [inversion Hin; lia|].
      rewrite Forall_forall in Hall. specialize (Hall _ Hin).
      unfold lt_of, edge_cmp in Hall. simpl in Hall.
      rewrite string_compare_refl in Hall. change (x < w) in Hall. lia.
    + destruct Hin as [Hin|Hin].
      * inversion Hin; subst. rewrite String.eqb_refl in Eb. discriminate.
      * apply IH; assumption.
  - induction edges as [|[b x] edges IH]; simpl; intros Hno; [reflexivity|].
    destruct (String.eqb b nextCity) eqn:Eb.
    + apply String.eqb_eq in Eb. subst b.
      exfalso. apply (Hno x). left. reflexivity.
    + apply IH. intros w Hin. apply (Hno w). right. exact Hin.
Qed.

(* ================================================================== *)
(** * More on the query loop *)

Lemma process_query_events fuel g s e events :
  process_query fuel g s e = (events, Ret tt) ->
  exists m, events = answered ((s, e), m).
Proof.
  unfold process_query, answered. simpl.
  destruct (Dijkstra fuel g s e) as [paths|]; [|discriminate].
  destruct ((map_count s g =? 0) || (map_count e g =? 0))%bool.
  { intros H. inversion H; subst. eauto. }
  destruct (map_index (0, "") e paths) as [r paths1].
  destruct (negb (fst r =? INT_MAX) && (map_count e paths1 >? 0))%bool.
  - destruct (map_index (0, "") e paths1) as [r' paths2].
    destruct (createResultsMessage fuel s e (fst r') g paths2);
      intros H; inversion H; subst. eauto.
  - intros H. inversion H; subst. eauto.
Qed.

(** X12: a run of the query loop that ends normally has called the engine
    once and saved one message for each line of the route file that has two
    words, in the order of the lines; the other lines leave no trace. *)
Theorem main_loop_answers_each_query_in_order (g : Graph) (fuel : nat)
  (lines : list string) (events : list event) :
  main_loop fuel g lines = (events, Ret tt) ->
  exists messages,
    List.length messages = List.length (parsed_queries lines) /\
    events = flat_map answered (combine (parsed_queries lines) messages).
Proof.
  revert events. induction lines as [|line lines IH]; simpl; intros events H.
  - inversion H; subst. exists []. auto.
  - destruct (parse_query line) as [[s e]|]; [|apply IH, H].
    destruct (process_query fuel g s e) as [ev [[]| |]] eqn:Ep;
      try (inversion H; fail).
    destruct (main_loop fuel g lines) as [ev' r] eqn:Em.
    inversion H; subst.
    destruct (process_query_events _ _ _ _ _ Ep) as [m Hm].
    destruct (IH ev' eq_refl) as [messages [Hlen Hev]].
    exists (m :: messages). split; [simpl; lia|].
    simpl. rewrite Hm, Hev. reflexivity.
Qed.

(** X13: the queries of a route file are answered independently of each
    other: when the loop ends normally on the first part of a file, its run
    on the whole file is that run followed by the run on the rest. *)
Theorem main_loop_splits (g : Graph) (fuel : nat)
  (lines lines' : list string) (events : list event) :
  main_loop fuel g lines = (events, Ret tt) ->
  main_loop fuel g (lines ++ lines')%list =
  ((events ++ fst (main_loop fuel g lines'))%list,
   snd (main_loop fuel g lines')).
Proof.
  revert events. induction lines as [|line lines IH]; simpl; intros events H.
  - inversion H; subst. destruct (main_loop fuel g lines'); reflexivity.
  - destruct (parse_query line) as [[s e]|]; [|apply IH, H].
    destruct (process_query fuel g s e) as [ev [[]| |]] eqn:Ep;
      try (inversion H; fail).
    destruct (main_loop fuel g lines) as [ev' r] eqn:Em.
    inversion H; subst. rewrite (IH ev' eq_refl).
    rewrite <- app_assoc. reflexivity.
Qed.

Lemma Dijkstra_paths_ok g s e fuel paths :
  Dijkstra fuel g s e = Some paths -> paths_ok g paths.
Proof.
  intros HD. unfold Dijkstra in HD.
  apply (Dijkstra_loop_paths_ok g _ _ _ _) with (2 := HD).
  intros x r. rewrite init_paths_find.
  destruct (map_find x g); [|discriminate].
  destruct (String.eqb x s); intros H; inversion H; subst; split; simpl;
    try (left; reflexivity); unfold INT_MIN, INT_MAX; lia.
Qed.

Lemma Dijkstra_same_keys g s e fuel paths :
  dest_closed g -> Dijkstra fuel g s e = Some paths -> same_keys g paths.
Proof.
  intros Hc HD. unfold Dijkstra in HD.
  apply (Dijkstra_loop_same_keys g Hc _ _ _ _) with (2 := HD).
  intros v. rewrite init_paths_find. destruct (map_find v g); split; congruence.
Qed.

Lemma Dijkstra_pred_closed g s e fuel paths :
  dest_closed g -> Dijkstra fuel g s e = Some paths -> pred_closed paths.
Proof.
  intros Hc HD v r Hv.
  destruct (Dijkstra_paths_ok g s e fuel paths HD v r Hv) as [_ [H|[w [edges [Hp _]]]]].
  - left. exact H.
  - right. apply (Dijkstra_same_keys g s e fuel paths Hc HD). congruence.
Qed.

Lemma walk_back_never_raises paths :
  pred_closed paths ->
  forall fuel current acc x,
    current = "" \/ map_find current paths <> None ->
    walk_back fuel paths current acc <> Raise x.
Proof.
  intros Hpc. induction fuel as [|fuel IH]; intros current acc x Hcur.
  - destruct current; simpl; discriminate.
  - destruct current as [|a current]; [simpl; discriminate|].
    simpl. destruct Hcur as [Hcur|Hcur]; [discriminate|].
    destruct (map_find (String a current) paths) as [r|] eqn:E; [|congruence].
    apply IH. apply (Hpc _ _ E).
Qed.

Lemma back_linked_records paths :
  forall chain current x,
    back_linked paths current chain -> In x chain -> map_find x paths <> None.
Proof.
  induction chain as [|y chain IH]; simpl; intros current x Hl Hin; [contradiction|].
  destruct Hl as [-> [_ [r [Hf Hrest]]]].
  destruct Hin as [<-|Hin]; [congruence|].
  apply (IH (snd r) x Hrest Hin).
Qed.

Lemma legs_of_keys g :
  forall path, (forall x, In x path -> map_find x g <> None) ->
               exists legs, legs_of g path = Ret legs.
Proof.
  induction path as [|a path IH]; intros Hk; [exists []; reflexivity|].
  destruct path as [|b path]; [exists []; reflexivity|].
  rewrite legs_of_cons.
  destruct (map_find a g) as [edges|] eqn:Ea.
  - destruct IH as [legs Hl]; [intros x Hx; apply Hk; right; exact Hx|].
    rewrite Hl. simpl. eauto.
  - exfalso. apply (Hk a); [left; reflexivity|exact Ea].
Qed.

Lemma legs_loop_settled g path :
  forall fuel fuel' i r,
    legs_loop fuel g path i = r -> r <> OutOfFuel -> (fuel <= fuel')%nat ->
    legs_loop fuel' g path i = r.
Proof.
  induction fuel as [|fuel IH]; intros fuel' i r H Hr Hle.
  - simpl in H. destruct (i <? size_t_sub (Z.of_nat (List.length path)) 1) eqn:E;
      [congruence|].
    destruct fuel'; simpl; rewrite E; exact H.
  - destruct fuel' as [|fuel']; [lia|]. simpl in *.
    destruct (i <? size_t_sub (Z.of_nat (List.length path)) 1); [|exact H].
    destruct (nth_error path (Z.to_nat i)); [|exact H].
    destruct (nth_error path (Z.to_nat (i + 1))); [|exact H].
    destruct (map_find s g); [|exact H].
    destruct (legs_loop fuel g path (i + 1)) as [rest|x|] eqn:E.
    + rewrite (IH fuel' (i + 1) (Ret rest) E) by (discriminate || lia). exact H.
    + rewrite (IH fuel' (i + 1) (Raise x) E) by (discriminate || lia). exact H.
    + simpl in H. exfalso. apply Hr. symmetry. exact H.
Qed.

Lemma route_legs_never_raises g paths end_ :
  pred_closed paths ->
  (forall v, map_find v paths <> None -> map_find v g <> None) ->
  end_ <> "" -> map_find end_ paths <> None ->
  forall fuel x, route_legs fuel g paths end_ <> Raise x.
Proof.
  intros Hpc Hkeys Hne He fuel x. unfold route_legs.
  destruct (walk_back fuel paths end_ []) as [path|y|] eqn:Ew.
  - simpl. intros Hl.
    destruct (walk_back_chain paths _ _ _ _ Ew) as [chain [Hp Hlink]].
    simpl in Hp. subst path.
    assert (Hc : chain <> []).
    { destruct chain; [simpl in Hlink; congruence|discriminate]. }
    assert (Hr : rev chain <> []).
    { destruct chain; [congruence|]. simpl. intros E.
      apply app_eq_nil in E. destruct E; discriminate. }
    destruct (legs_of_keys g (rev chain)) as [legs Hlegs].
    { intros y Hy. apply Hkeys. apply in_rev in Hy.
      apply (back_linked_records paths chain end_ y Hlink Hy). }
    pose proof (legs_loop_settled g (rev chain) fuel
                  (Nat.max fuel (List.length chain)) 0 (Raise x) Hl
                  ltac:(discriminate) ltac:(lia)) as Hbig.
    rewrite legs_loop_from_start in Hbig; [congruence|exact Hr|].
    rewrite length_rev. lia.
  - exfalso. apply (walk_back_never_raises paths Hpc fuel end_ [] y); [|exact Ew].
    right. exact He.
  - simpl. discriminate.
Qed.

Lemma process_query_never_raises g s e fuel x :
  dest_closed g -> e <> "" ->
  snd (process_query fuel g s e) <> Raise x.
Proof.
  intros Hc Hne. unfold process_query.
  destruct (Dijkstra fuel g s e) as [paths|] eqn:HD; [|simpl; discriminate].
  destruct ((map_count s g =? 0) || (map_count e g =? 0))%bool eqn:Ek;
    [simpl; discriminate|].
  apply orb_false_iff in Ek. destruct Ek as [_ Ee].
  assert (Heg : map_find e g <> None).
  { unfold map_count in Ee. destruct (map_find e g); [discriminate|].
    simpl in Ee. discriminate. }
  pose proof (Dijkstra_same_keys g s e fuel paths Hc HD) as Hsk.
  assert (Hep : map_find e paths <> None) by (apply Hsk; exact Heg).
  destruct (map_find e paths) as [r|] eqn:Er; [|congruence].
  rewrite (map_index_present _ _ _ _ Er). cbv iota beta.
  destruct (negb (fst r =? INT_MAX) && (map_count e paths >? 0))%bool;
    [|simpl; discriminate].
  rewrite (map_index_present _ _ _ _ Er). cbv iota beta.
  unfold createResultsMessage.
  destruct (route_legs fuel g paths e) as [legs|y|] eqn:El; simpl;
    try discriminate.
  exfalso.
  apply (route_legs_never_raises g paths e
           (Dijkstra_pred_closed g s e fuel paths Hc HD)
           (fun v H => proj1 (Hsk v) H) Hne ltac:(congruence) fuel y El).
Qed.

Lemma parse_query_nonempty line s e :
  parse_query line = Some (s, e) -> s <> "" /\ e <> "".
Proof.
  unfold parse_query.
  destruct (read_word line) as [[s' r1]|] eqn:E1; [|discriminate].
  destruct (read_word r1) as [[e' r2]|] eqn:E2; [|discriminate].
  intros H. inversion H; subst.
  split; eapply read_word_nonempty; eassumption.
Qed.

Lemma main_loop_never_raises g fuel x :
  dest_closed g ->
  forall lines, snd (main_loop fuel g lines) <> Raise x.
Proof.
  intros Hc. induction lines as [|line lines IH]; simpl; [discriminate|].
  destruct (parse_query line) as [[s e]|] eqn:Eq; [|exact IH].
  apply parse_query_nonempty in Eq. destruct Eq as [_ He].
  pose proof (process_query_never_raises g s e fuel x Hc He) as Hq.
  destruct (process_query fuel g s e) as [ev [[]|y|]]; simpl in *.
  - destruct (main_loop fuel g lines) as [ev' r]. simpl in *. exact IH.
  - exact Hq.
  - discriminate.
Qed.

(** X14: a run of the program never ends by an exception of [at] or by an
    access outside the vector of the path, whatever the road file and the
    route file hold: on a loaded graph the checks of line 232 make every
    lookup of the reconstruction succeed. *)
Theorem main_never_raises (fuel : nat) (roads routes : list string)
  (x : failure) :
  snd (main fuel roads routes) <> Raise x.
Proof.
  unfold main. apply main_loop_never_raises.
  apply (ok_closed _ (loadFromFile_ok roads)).
Qed.




(* ================================================================== *)
(** * The program on a file system *)


Lemma string_append_nil (a : string) : (a ++ "" = a)%string.
Proof. induction a as [|x a IH]; simpl; [reflexivity|]. rewrite IH. reflexivity. Qed.











(* ================================================================== *)
(** * Lines that the loader and the query loop accept *)

Lemma take_digits_uint u :
  forall rest acc,
    starts_with_digit rest = false ->
    take_digits (NilEmpty.string_of_uint u ++ rest) (Zpos acc)
    = (Zpos (Pos.of_uint_acc u acc), rest).
Proof.
  induction u; intros rest acc Hrest; cbn [NilEmpty.string_of_uint append];
    try (cbn [take_digits];
         match goal with
         | |- context [digit_of ?c] =>
             let v := eval vm_compute in (digit_of c) in
             change (digit_of c) with v
         end;
         cbv iota beta; cbn [Pos.of_uint_acc];
         rewrite <- (IHu rest _ Hrest); f_equal; lia).
  simpl. destruct rest as [|c rest]; [reflexivity|].
  simpl in *. destruct (digit_of c); [discriminate|reflexivity].
Qed.

Lemma take_digits_uint0 u :
  forall rest,
    starts_with_digit rest = false ->
    take_digits (NilEmpty.string_of_uint u ++ rest) 0
    = (Z.of_N (Pos.of_uint u), rest).
Proof.
  induction u; intros rest Hrest; cbn [NilEmpty.string_of_uint append];
    try (cbn [take_digits];
         match goal with
         | |- context [digit_of ?c] =>
             let v := eval vm_compute in (digit_of c) in
             change (digit_of c) with v
         end;
         cbv iota beta; cbn [Pos.of_uint Z.of_N];
         first [ apply IHu; exact Hrest
               | apply take_digits_uint; exact Hrest ]).
  simpl. destruct rest as [|c rest]; [reflexivity|].
  simpl in *. destruct (digit_of c); [discriminate|reflexivity].
Qed.

Lemma uint_string_starts_with_digit u rest :
  u <> Decimal.Nil ->
  starts_with_digit (NilEmpty.string_of_uint u ++ rest) = true /\
  skipws (NilEmpty.string_of_uint u ++ rest) = (NilEmpty.string_of_uint u ++ rest)%string /\
  exists c tail, (NilEmpty.string_of_uint u ++ rest)%string = String c tail /\
                 c <> "-"%char /\ c <> "+"%char.
Proof.
  destruct u; intros Hne; try congruence; simpl;
    (split; [reflexivity|]); (split; [reflexivity|]);
    eexists; eexists; (split; [reflexivity|]); split; discriminate.
Qed.

(** [operator>>] reads back the [int] that [operator<<] wrote. *)
Lemma read_int_int_to_string z rest :
  INT_MIN <= z <= INT_MAX -> starts_with_digit rest = false ->
  read_int (int_to_string z ++ rest) = Some (z, rest).
Proof.
  intros Hz Hrest.
  assert (Hrange : forall v, INT_MIN <= v <= INT_MAX ->
            ((INT_MIN <=? v) && (v <=? INT_MAX))%bool = true).
  { intros v Hv. apply andb_true_iff. split; apply Z.leb_le; lia. }
  unfold int_to_string. destruct z as [|p|p]; cbn [Z.to_int NilZero.string_of_int].
  - unfold read_int. cbn [NilZero.string_of_uint NilEmpty.string_of_uint append].
    change (skipws (String "0" rest)) with (String "0" rest). cbv iota beta.
    change (starts_with_digit (String "0" rest)) with true. cbv iota.
    change (take_digits (String "0" rest) 0) with (take_digits rest 0).
    assert (E : take_digits rest 0 = (0, rest)).
    { destruct rest as [|c rest]; [reflexivity|].
      simpl in *. destruct (digit_of c); [discriminate|reflexivity]. }
    rewrite E. cbv iota beta. rewrite (Hrange 0 Hz). reflexivity.
  - assert (Hnn := DecimalPos.Unsigned.to_uint_nonnil p).
    assert (Es : NilZero.string_of_uint (Pos.to_uint p)
                 = NilEmpty.string_of_uint (Pos.to_uint p)).
    { unfold NilZero.string_of_uint. destruct (Pos.to_uint p); congruence. }
    rewrite Es.
    destruct (uint_string_starts_with_digit (Pos.to_uint p) rest Hnn)
      as [Hsd [Hsk [c [tail [Hshape [Hm Hp]]]]]].
    unfold read_int. rewrite Hsk.
    assert (Esign : match (NilEmpty.string_of_uint (Pos.to_uint p) ++ rest)%string with
                    | String "-"%char r => (true, r)
                    | String "+"%char r => (false, r)
                    | _ => (false, (NilEmpty.string_of_uint (Pos.to_uint p) ++ rest)%string)
                    end = (false, (NilEmpty.string_of_uint (Pos.to_uint p) ++ rest)%string)).
    { rewrite Hshape.
      destruct c as [[|] [|] [|] [|] [|] [|] [|] [|]]; try reflexivity; congruence. }
    rewrite Esign. cbv iota beta. rewrite Hsd. cbv iota.
    rewrite (take_digits_uint0 _ _ Hrest), DecimalPos.Unsigned.of_to.
    cbv iota beta. cbn [Z.of_N]. rewrite (Hrange _ Hz). reflexivity.
  - assert (Hnn := DecimalPos.Unsigned.to_uint_nonnil p).
    assert (Es : NilZero.string_of_uint (Pos.to_uint p)
                 = NilEmpty.string_of_uint (Pos.to_uint p)).
    { unfold NilZero.string_of_uint. destruct (Pos.to_uint p); congruence. }
    rewrite Es.
    destruct (uint_string_starts_with_digit (Pos.to_uint p) rest Hnn)
      as [Hsd _].
    unfold read_int. cbn [append].
    change (skipws (String "-" (NilEmpty.string_of_uint (Pos.to_uint p) ++ rest)))
      with (String "-" (NilEmpty.string_of_uint (Pos.to_uint p) ++ rest)).
    cbv iota beta. rewrite Hsd. cbv iota.
    rewrite (take_digits_uint0 _ _ Hrest), DecimalPos.Unsigned.of_to.
    cbv iota beta. cbn [Z.of_N Z.opp]. rewrite (Hrange _ Hz). reflexivity.
Qed.

Lemma take_word_word w :
  has_space w = false ->
  forall rest,
    rest = "" \/ (exists c tail, rest = String c tail /\ isspace c = true) ->
    take_word (w ++ rest) = (w, rest).
Proof.
  induction w as [|c w IH]; simpl; intros Hw rest Hrest.
  - destruct Hrest as [->|[c [tail [-> Hc]]]]; simpl; [reflexivity|].
    rewrite Hc. reflexivity.
  - apply orb_false_iff in Hw. destruct Hw as [Hc Hw].
    rewrite Hc, (IH Hw rest Hrest). reflexivity.
Qed.

Lemma read_word_word w rest :
  is_word w ->
  rest = "" \/ (exists c tail, rest = String c tail /\ isspace c = true) ->
  read_word (w ++ rest) = Some (w, rest).
Proof.
  intros [Hne Hw] Hrest. unfold read_word.
  assert (Hsk : skipws (w ++ rest) = (w ++ rest)%string).
  { destruct w as [|c w]; [congruence|]. simpl in *.
    apply orb_false_iff in Hw. destruct Hw as [Hc _]. rewrite Hc. reflexivity. }
  rewrite Hsk, (take_word_word w Hw rest Hrest).
  destruct w; [congruence|reflexivity].
Qed.

Lemma parse_edge_edge_line s d w :
  is_word s -> is_word d -> INT_MIN <= w <= INT_MAX ->
  parse_edge (edge_line s d w) = Some (s, d, w).
Proof.
  intros Hs Hd Hw.
  assert (Hblank : forall tail : string,
             (" " ++ tail)%string = "" \/
             exists c t, (" " ++ tail)%string = String c t /\ isspace c = true).
  { intros tail. right. exists " "%char, tail. split; reflexivity. }
  unfold parse_edge, edge_line.
  rewrite (read_word_word s _ Hs (Hblank _)).
  assert (E2 : read_word (" " ++ d ++ " " ++ int_to_string w)
               = Some (d, (" " ++ int_to_string w)%string)).
  { rewrite <- (read_word_word d _ Hd (Hblank (int_to_string w))).
    reflexivity. }
  rewrite E2.
  assert (E3 : read_int (" " ++ int_to_string w) = Some (w, "")).
  { transitivity (read_int (int_to_string w ++ "")).
    - rewrite string_append_nil. reflexivity.
    - apply read_int_int_to_string; [exact Hw|reflexivity]. }
  rewrite E3. reflexivity.
Qed.

Lemma parse_query_query_line s e :
  is_word s -> is_word e -> parse_query (query_line s e) = Some (s, e).
Proof.
  intros Hs He.
  assert (Hblank : forall tail : string,
             (" " ++ tail)%string = "" \/
             exists c t, (" " ++ tail)%string = String c t /\ isspace c = true).
  { intros tail. right. exists " "%char, tail. split; reflexivity. }
  unfold parse_query, query_line.
  rewrite (read_word_word s _ Hs (Hblank _)).
  assert (E2 : read_word (" " ++ e) = Some (e, "")).
  { pose proof (read_word_word e "" He (or_introl eq_refl)) as H.
    rewrite string_append_nil in H. rewrite <- H. reflexivity. }
  rewrite E2. reflexivity.
Qed.

(** [operator>>] fails on a number that does not fit an [int]. *)
Lemma read_int_unfit z rest :
  ~ INT_MIN <= z <= INT_MAX -> starts_with_digit rest = false ->
  read_int (int_to_string z ++ rest) = None.
Proof.
  intros Hz Hrest.
  assert (Hrange : forall v, ~ INT_MIN <= v <= INT_MAX ->
            ((INT_MIN <=? v) && (v <=? INT_MAX))%bool = false).
  { intros v Hv. apply andb_false_iff.
    destruct (Z.leb_spec INT_MIN v); [|left; reflexivity].
    destruct (Z.leb_spec v INT_MAX); [|right; reflexivity].
    exfalso. apply Hv. lia. }
  unfold int_to_string. destruct z as [|p|p]; cbn [Z.to_int NilZero.string_of_int].
  - exfalso. apply Hz. unfold INT_MIN, INT_MAX. lia.
  - assert (Hnn := DecimalPos.Unsigned.to_uint_nonnil p).
    assert (Es : NilZero.string_of_uint (Pos.to_uint p)
                 = NilEmpty.string_of_uint (Pos.to_uint p)).
    { unfold NilZero.string_of_uint. destruct (Pos.to_uint p); congruence. }
    rewrite Es.
    destruct (uint_string_starts_with_digit (Pos.to_uint p) rest Hnn)
      as [Hsd [Hsk [c [tail [Hshape [Hm Hp]]]]]].
    unfold read_int. rewrite Hsk.
    assert (Esign : match (NilEmpty.string_of_uint (Pos.to_uint p) ++ rest)%string with
                    | String "-"%char r => (true, r)
                    | String "+"%char r => (false, r)
                    | _ => (false, (NilEmpty.string_of_uint (Pos.to_uint p) ++ rest)%string)
                    end = (false, (NilEmpty.string_of_uint (Pos.to_uint p) ++ rest)%string)).
    { rewrite Hshape.
      destruct c as [[|] [|] [|] [|] [|] [|] [|] [|]]; try reflexivity; congruence. }
    rewrite Esign. cbv iota beta. rewrite Hsd. cbv iota.
    rewrite (take_digits_uint0 _ _ Hrest), DecimalPos.Unsigned.of_to.
    cbv iota beta. cbn [Z.of_N]. rewrite (Hrange _ Hz). reflexivity.
  - assert (Hnn := DecimalPos.Unsigned.to_uint_nonnil p).
    assert (Es : NilZero.string_of_uint (Pos.to_uint p)
                 = NilEmpty.string_of_uint (Pos.to_uint p)).
    { unfold NilZero.string_of_uint. destruct (Pos.to_uint p); congruence. }
    rewrite Es.
    destruct (uint_string_starts_with_digit (Pos.to_uint p) rest Hnn)
      as [Hsd _].
    unfold read_int. cbn [append].
    change (skipws (String "-" (NilEmpty.string_of_uint (Pos.to_uint p) ++ rest)))
      with (String "-" (NilEmpty.string_of_uint (Pos.to_uint p) ++ rest)).
    cbv iota beta. rewrite Hsd. cbv iota.
    rewrite (take_digits_uint0 _ _ Hrest), DecimalPos.Unsigned.of_to.
    cbv iota beta. cbn [Z.of_N Z.opp]. rewrite (Hrange _ Hz). reflexivity.
Qed.

Lemma parse_edge_unfit s d w :
  is_word s -> is_word d -> ~ INT_MIN <= w <= INT_MAX ->
  parse_edge (edge_line s d w) = None.
Proof.
  intros Hs Hd Hw.
  assert (Hblank : forall tail : string,
             (" " ++ tail)%string = "" \/
             exists c t, (" " ++ tail)%string = String c t /\ isspace c = true).
  { intros tail. right. exists " "%char, tail. split; reflexivity. }
  unfold parse_edge, edge_line.
  rewrite (read_word_word s _ Hs (Hblank _)).
  assert (E2 : read_word (" " ++ d ++ " " ++ int_to_string w)
               = Some (d, (" " ++ int_to_string w)%string)).
  { rewrite <- (read_word_word d _ Hd (Hblank (int_to_string w))).
    reflexivity. }
  rewrite E2.
  assert (E3 : read_int (" " ++ int_to_string w) = None).
  { transitivity (read_int (int_to_string w ++ "")).
    - rewrite string_append_nil. reflexivity.
    - apply read_int_unfit; [exact Hw|reflexivity]. }
  rewrite E3. reflexivity.
Qed.

(** X2: the names of a loaded graph are words, non-empty and free of white
    space, and its weights are within the range of [int]; a line with two
    words and a decimal number that does not fit an [int] is skipped: the
    file loads as it does without this line. *)
Theorem loadFromFile_names_and_weights (lines : list string)
  (s d : string) (w : Z) :
  (edge (loadFromFile lines) s d w ->
   is_word s /\ is_word d /\ INT_MIN <= w <= INT_MAX) /\
  (is_word s -> is_word d -> ~ INT_MIN <= w <= INT_MAX ->
   forall after,
     loadFromFile (lines ++ edge_line s d w :: after)%list
     = loadFromFile (lines ++ after)%list).
Proof.
  split.
  - intros He. unfold loadFromFile in He. apply fold_load_edges in He.
    destruct He as [[e [H _]]|[line [_ Hp]]]; [discriminate|].
    eapply parse_edge_fields; exact Hp.
  - intros Hs Hd Hw after. unfold loadFromFile.
    rewrite !fold_left_app. cbn [fold_left]. unfold load_line at 2.
    rewrite (parse_edge_unfit s d w Hs Hd Hw). reflexivity.
Qed.

(** X20: the loader and the query loop accept the lines of the format: two
    words and an [int] written in decimal, separated by a blank, are read
    back as the edge they spell, and two words as the query they spell. *)
Theorem formatted_lines_are_accepted (s d : string) (w : Z) :
  is_word s -> is_word d -> INT_MIN <= w <= INT_MAX ->
  parse_edge (edge_line s d w) = Some (s, d, w) /\
  parse_query (query_line s d) = Some (s, d).
Proof.
  intros Hs Hd Hw. split.
  - apply parse_edge_edge_line; assumption.
  - apply parse_query_query_line; assumption.
Qed.

(** X21: a road file written from a list of edges, one line for each with
    its two names and its weight in decimal, loads as the graph of exactly
    these edges, whatever their order and their repetitions. *)
Theorem written_roads_load_back (triples : list leg) :
  Forall well_formed triples ->
  forall s d w,
    edge (loadFromFile (road_lines triples)) s d w <-> In (s, d, w) triples.
Proof.
  intros Hwf s d w. unfold loadFromFile. rewrite fold_load_edges.
  rewrite Forall_forall in Hwf. split.
  - intros [[e [H _]]|[line [Hin Hp]]]; [discriminate|].
    unfold road_lines in Hin. apply in_map_iff in Hin.
    destruct Hin as [[[s' d'] w'] [<- Hin]].
    destruct (Hwf _ Hin) as [Hs [Hd Hw]]. simpl in *.
    rewrite (parse_edge_edge_line s' d' w' Hs Hd Hw) in Hp.
    inversion Hp; subst. exact Hin.
  - intros Hin. right. exists (edge_line s d w). split.
    + unfold road_lines. apply in_map_iff. exists (s, d, w). split; [reflexivity|exact Hin].
    + destruct (Hwf _ Hin) as [Hs [Hd Hw]]. simpl in *.
      apply parse_edge_edge_line; assumption.
Qed.

(* ================================================================== *)
(** * What a recorded distance stands for *)

Lemma wrap_add_l a b : wrap (wrap a + b) = wrap (a + b).
Proof.
  unfold wrap.
  replace ((a + 2147483648) mod 4294967296 - 2147483648 + b + 2147483648)
    with ((a + 2147483648) mod 4294967296 + b) by lia.
  rewrite Zplus_mod_idemp_l. f_equal. f_equal. lia.
Qed.

Lemma realised_has_walk g s v r :
  realised g s v r -> r = unreached \/ has_walk g s v (fst r).
Proof.
  intros [H|[[-> ->]|[L [w [Hw [He Hd]]]]]].
  - left. exact H.
  - right. exists 0. split; [constructor|reflexivity].
  - right. exists (L + w). split; [|exact Hd].
    eapply walk_step; eassumption.
Qed.

Lemma relax_realised g s current all :
  dest_closed g -> map_find current g = Some all ->
  forall todo paths queue,
    (forall e, In e todo -> In e all) ->
    same_keys g paths ->
    (forall v r, map_find v paths = Some r -> realised g s v r) ->
    (exists r, map_find current paths = Some r /\ has_walk g s current (fst r)) ->
    queue_realised g s paths queue ->
    (forall v r, map_find v (fst (relax current todo paths queue)) = Some r ->
                 realised g s v r) /\
    queue_realised g s (fst (relax current todo paths queue))
      (snd (relax current todo paths queue)).
Proof.
  intros Hc Hcur.
  induction todo as [|[v w] todo IH]; intros paths queue Hsub Hk Hr Hcw Hq.
  - simpl. split; assumption.
  - assert (Hsub' : forall e, In e todo -> In e all)
      by (intros e He; apply Hsub; right; exact He).
    assert (Hedge : edge g current v w).
    { exists all. split; [exact Hcur|]. apply Hsub. left. reflexivity. }
    destruct Hcw as [rc [Hrc [L [HL HdL]]]].
    assert (Hv : map_find v paths <> None) by (apply Hk; eapply Hc; exact Hedge).
    destruct (map_find v paths) as [rn|] eqn:Hrn; [clear Hv|congruence].
    cbn [relax fst snd].
    rewrite (map_index_present _ _ _ _ Hrc).
    rewrite (map_index_present _ _ _ _ Hrn).
    destruct (int_add (fst rc) w <? fst rn).
    + assert (Hnew : has_walk g s v (int_add (fst rc) w)).
      { exists (L + w). split; [eapply walk_step; eassumption|].
        unfold int_add. rewrite HdL. apply wrap_add_l. }
      apply IH.
      * exact Hsub'.
      * intros x. rewrite map_find_set. destruct (String.eqb x v) eqn:Ex.
        -- apply String.eqb_eq in Ex. subst x.
           split; [intros _; eapply Hc; exact Hedge|discriminate].
        -- apply Hk.
      * intros x r. rewrite map_find_set. destruct (String.eqb x v) eqn:Ex.
        -- apply String.eqb_eq in Ex. subst x. intros H. inversion H; subst r.
           right. right. exists L, w. cbn [fst snd].
           split; [exact HL|]. split; [exact Hedge|].
           unfold int_add. rewrite HdL. apply wrap_add_l.
        -- apply Hr.
      * rewrite map_find_set. destruct (String.eqb current v) eqn:Ex.
        -- apply String.eqb_eq in Ex. subst v.
           eexists. split; [reflexivity|]. exact Hnew.
        -- exists rc. split; [exact Hrc|]. exists L. split; assumption.
      * intros d x Hin Hx.
        apply (In_set_insert queue_cmp queue_cmp_eq) in Hin.
        rewrite map_find_set. destruct (String.eqb x v) eqn:Ex.
        -- apply String.eqb_eq in Ex. subst x.
           eexists. split; [reflexivity|]. exact Hnew.
        -- destruct Hin as [Hin|Hin].
           ++ inversion Hin; subst. rewrite String.eqb_refl in Ex. discriminate.
           ++ apply (Hq d x Hin Hx).
    + apply IH; try assumption.
      exists rc. split; [exact Hrc|]. exists L. split; assumption.
Qed.

Lemma Dijkstra_loop_realised g s :
  dest_closed g ->
  forall fuel paths queue paths',
    same_keys g paths ->
    (forall v r, map_find v paths = Some r -> realised g s v r) ->
    queue_realised g s paths queue ->
    Dijkstra_loop fuel g paths queue = Some paths' ->
    forall v r, map_find v paths' = Some r -> realised g s v r.
Proof.
  intros Hc. induction fuel as [|fuel IH]; intros paths queue paths' Hk Hr Hq H.
  - destruct queue as [|[k c] q]; simpl in H; [|discriminate].
    inversion H; subst. exact Hr.
  - destruct queue as [|[k c] q]; simpl in H.
    + inversion H; subst. exact Hr.
    + destruct (map_find c g) as [edges|] eqn:Ec.
      * assert (Hcw : exists r, map_find c paths = Some r /\ has_walk g s c (fst r)).
        { apply (Hq k c); [left; reflexivity|congruence]. }
        assert (Hq' : queue_realised g s paths q).
        { intros d x Hin Hx. apply (Hq d x); [right; exact Hin|exact Hx]. }
        destruct (relax_realised g s c edges Hc Ec edges paths q
                    (fun e He => He) Hk Hr Hcw Hq') as [Hr1 Hq1].
        pose proof (relax_same_keys g c edges Hc Ec edges paths q
                      (fun e He => He) Hk) as Hk1.
        destruct (relax c edges paths q) as [p1 q1] eqn:Er.
        apply (IH p1 q1); assumption.
      * inversion H; subst. exact Hr.
Qed.

(** X22: on a graph in which every destination is a key, and so on every
    loaded graph, whatever the weights, each record of the map a run from
    [s] returns is the initial one, or its distance is, modulo [2^32], the
    length of a path of the graph from [s] that ends with the edge from the
    recorded predecessor; a distance is never made up. *)
Theorem recorded_distance_is_a_path_length (g : Graph) (s e : string)
  (fuel : nat) (paths : Paths) (v : string) (d : Z) (p : string) :
  dest_closed g -> Dijkstra fuel g s e = Some paths ->
  map_find v paths = Some (d, p) ->
  (d, p) = unreached \/ (v = s /\ (d, p) = (0, "")) \/
  exists L w, walk g s p L /\ edge g p v w /\ d = wrap (L + w).
Proof.
  intros Hc HD Hf. unfold Dijkstra in HD.
  apply (Dijkstra_loop_realised g s Hc _ _ _ _) with (4 := HD) (5 := Hf).
  - intros x. rewrite init_paths_find. destruct (map_find x g); split; congruence.
  - intros x r. rewrite init_paths_find.
    destruct (map_find x g); [|discriminate].
    destruct (String.eqb x s) eqn:Ex; intros H; inversion H; subst r.
    + apply String.eqb_eq in Ex. right. left. split; [exact Ex|reflexivity].
    + left. reflexivity.
  - intros d0 x Hin Hx. simpl in Hin. destruct Hin as [Hin|[]].
    inversion Hin; subst. rewrite init_paths_find.
    destruct (map_find x g); [|congruence].
    rewrite String.eqb_refl. eexists. split; [reflexivity|].
    exists 0. split; [constructor|reflexivity].
Qed.


(* ================================================================== *)
(** * The further theorems on the example inputs *)

Lemma walk_height g (h : string -> Z) s :
  (forall u v w, edge g u v w -> h u + w <= h v) ->
  forall t L, walk g s t L -> h s + L <= h t.
Proof.
  intros Hh t L Hw. induction Hw as [|u v w L _ IH He]; [lia|].
  specialize (Hh u v w He). lia.
Qed.

Lemma height_no_overflow g (h : string -> Z) :
  (forall v, 0 <= h v <= INT_MAX) ->
  (forall u v w, edge g u v w -> h u + w <= h v) ->
  forall s, no_overflow g s.
Proof.
  intros Hb Hh s u d v w [Hw _] He.
  pose proof (walk_height g h s Hh u d Hw).
  pose proof (Hh u v w He). pose proof (Hb s). pose proof (Hb v). lia.
Qed.

Lemma example_safe_all : forall s, no_overflow example_graph s.
Proof.
  apply (height_no_overflow example_graph example_height).
  - intros v. unfold example_height, INT_MAX.
    destruct (String.eqb v "A"); [lia|]. destruct (String.eqb v "B"); lia.
  - intros u v w He. apply edge_in_list in He.
    assert (E : edge_list example_graph
                = [("A", "B", 5); ("A", "C", 10); ("B", "C", 3)])
      by (vm_compute; reflexivity).
    rewrite E in He. simpl in He.
    destruct He as [H|[H|[H|[]]]]; inversion H; subst; vm_compute; discriminate.
Qed.

Lemma example_walk_from_C t L : walk example_graph "C" t L -> t = "C".
Proof.
  intros Hw. induction Hw as [|u v w L _ IH He]; [reflexivity|].
  subst u. destruct He as [edges [Hf Hin]].
  vm_compute in Hf. inversion Hf; subst. destruct Hin.
Qed.

Lemma is_word_A : is_word "A".
Proof. split; [discriminate|reflexivity]. Qed.

Lemma is_word_B : is_word "B".
Proof. split; [discriminate|reflexivity]. Qed.

Lemma loadFromFile_holds_the_described_edges_witness :
  edge (loadFromFile example_roads) "B" "C" 3 /\
  map_find "C" (loadFromFile example_roads) <> None.
Proof.
  destruct (loadFromFile_holds_the_described_edges example_roads) as [He Hk].
  assert (Hd : described example_roads "B" "C" 3).
  { exists "B C 3". split; [simpl; auto|vm_compute; reflexivity]. }
  split.
  - apply He. exact Hd.
  - apply Hk. exists "B", "C", 3. split; [exact Hd|right; reflexivity].
Defined.

Lemma loadFromFile_names_and_weights_witness :
  (is_word "A" /\ is_word "B" /\ INT_MIN <= 5 <= INT_MAX) /\
  loadFromFile (example_roads ++ edge_line "A" "B" 2147483648 :: ["C A 1"])%list
  = loadFromFile (example_roads ++ ["C A 1"])%list.
Proof.
  destruct (loadFromFile_names_and_weights example_roads "A" "B" 5) as [H1 _].
  destruct (loadFromFile_names_and_weights example_roads "A" "B" 2147483648)
    as [_ H2].
  split.
  - apply H1. apply example_edge_AB.
  - apply H2.
    + apply is_word_A.
    + apply is_word_B.
    + unfold INT_MIN, INT_MAX. lia.
Defined.

Lemma loadFromFile_depends_on_described_edges_witness :
  loadFromFile ["A B 5"; "B C 3"]
  = loadFromFile ["B C 3"; "junk"; "A B 5"; "A B 5"].
Proof.
  apply (loadFromFile_depends_on_described_edges
           ["A B 5"; "B C 3"] ["B C 3"; "junk"; "A B 5"; "A B 5"]).
  intros s d w. split; intros [line [Hin Hp]]; simpl in Hin.
  - destruct Hin as [<-|[<-|[]]]; eexists; (split; [|exact Hp]); simpl; auto.
  - destruct Hin as [<-|[<-|[<-|[<-|[]]]]];
      try (vm_compute in Hp; discriminate);
      eexists; (split; [|exact Hp]); simpl; auto.
Defined.

Lemma Dijkstra_always_ends_witness :
  exists fuel0 paths,
    forall fuel, (fuel0 <= fuel)%nat ->
                 Dijkstra fuel round_graph "A" "B" = Some paths.
Proof. apply (Dijkstra_always_ends round_graph "A" "B"). Defined.

Lemma Dijkstra_keeps_the_keys_witness : same_keys example_graph example_paths.
Proof.
  apply (Dijkstra_keeps_the_keys example_graph "A" "C" 10 example_paths).
  - apply (ok_closed _ example_graph_ok).
  - apply example_run.
Defined.

Lemma Dijkstra_records_follow_edges_witness :
  INT_MIN <= 8 <= INT_MAX /\
  ("B" = "" \/ exists w, edge example_graph "B" "C" w).
Proof.
  apply (Dijkstra_records_follow_edges example_graph "A" "C" 10 example_paths "C").
  - apply example_run.
  - reflexivity.
Defined.

Lemma unreachable_query_is_impossible_witness :
  exists fuel0 paths,
    forall fuel, (fuel0 <= fuel)%nat ->
      Dijkstra fuel example_graph "C" "A" = Some paths /\
      map_find "A" paths = Some unreached /\
      process_query fuel example_graph "C" "A" =
      ([CallDijkstra "C" "A"; SaveResults (impossible_message "C" "A")], Ret tt).
Proof.
  apply (unreachable_query_is_impossible example_graph "C" "A").
  - apply example_graph_ok.
  - apply example_nonneg.
  - apply example_safe_all.
  - vm_compute. discriminate.
  - vm_compute. discriminate.
  - intros L Hw. apply example_walk_from_C in Hw. discriminate.
Defined.

Lemma reconstructed_route_is_least_witness :
  exists fuel0 legs,
    (forall fuel', (fuel0 <= fuel')%nat ->
       route_legs fuel' example_graph example_paths "C" = Ret legs) /\
    is_route example_graph "A" legs "C" /\
    forall legs', is_route example_graph "A" legs' "C" ->
                  legs_total legs <= legs_total legs'.
Proof.
  apply (reconstructed_route_is_least example_graph "A" "C" 10 example_paths 8 "B").
  - apply example_graph_ok.
  - apply example_nonneg.
  - apply example_safe.
  - vm_compute. discriminate.
  - apply example_run.
  - reflexivity.
  - unfold INT_MAX. lia.
Defined.

Lemma route_legs_run_along_predecessors_witness :
  exists first d,
    map_find first example_paths = Some (d, "") /\
    follows example_paths first [("A", "B", 5); ("B", "C", 3)] "C" /\
    Forall (leg_scanned example_graph) [("A", "B", 5); ("B", "C", 3)].
Proof.
  apply (route_legs_run_along_predecessors example_graph example_paths "C" 10).
  - discriminate.
  - vm_compute. reflexivity.
Defined.

Lemma createResultsMessage_failures_witness :
  createResultsMessage 1 "A" "Z" 0 example_graph example_paths = Raise OutOfRange /\
  createResultsMessage 1 "A" "" 0 example_graph example_paths = Raise OutOfBounds.
Proof.
  destruct (createResultsMessage_failures example_graph example_paths "A" "Z" 0 0)
    as [H1 H2].
  split; [apply H1; [discriminate|reflexivity]|exact H2].
Defined.

Lemma first_match_finds_lightest_witness :
  In ("B", first_match "B" [("B", 3); ("B", 7); ("C", 1)])
     [("B", 3); ("B", 7); ("C", 1)] /\
  first_match "B" [("B", 3); ("B", 7); ("C", 1)] <= 7 /\
  first_match "Z" [("B", 3); ("B", 7); ("C", 1)] = 0.
Proof.
  destruct (first_match_finds_lightest "B" [("B", 3); ("B", 7); ("C", 1)])
    as [H1 [H2 _]].
  destruct (first_match_finds_lightest "Z" [("B", 3); ("B", 7); ("C", 1)])
    as [_ [_ H3]].
  split; [|split].
  - apply H1. exists 7. simpl. auto.
  - apply H2; [|simpl; auto].
    repeat constructor.
  - apply H3. intros w [H|[H|[H|[]]]]; discriminate.
Defined.

Lemma main_loop_answers_each_query_in_order_witness :
  exists messages,
    List.length messages
    = List.length (parsed_queries ["A C"; "junk"; "C A"]) /\
    fst (main_loop 10 example_graph ["A C"; "junk"; "C A"])
    = flat_map answered
        (combine (parsed_queries ["A C"; "junk"; "C A"]) messages).
Proof.
  apply (main_loop_answers_each_query_in_order example_graph 10).
  vm_compute. reflexivity.
Defined.

Lemma main_loop_splits_witness :
  main_loop 10 example_graph (["A C"; "junk"] ++ ["C A"])%list =
  ((fst (main_loop 10 example_graph ["A C"; "junk"])
      ++ fst (main_loop 10 example_graph ["C A"]))%list,
   snd (main_loop 10 example_graph ["C A"])).
Proof.
  apply (main_loop_splits example_graph 10 ["A C"; "junk"] ["C A"]).
  vm_compute. reflexivity.
Defined.







Lemma formatted_lines_are_accepted_witness :
  parse_edge (edge_line "A" "B" (-5)) = Some ("A", "B", -5) /\
  parse_query (query_line "A" "B") = Some ("A", "B").
Proof.
  apply (formatted_lines_are_accepted "A" "B" (-5)).
  - apply is_word_A.
  - apply is_word_B.
  - unfold INT_MIN, INT_MAX. lia.
Defined.

Lemma written_roads_load_back_witness :
  edge (loadFromFile (road_lines [("B", "A", 7); ("A", "B", -5); ("B", "A", 7)]))
       "A" "B" (-5).
Proof.
  apply (written_roads_load_back [("B", "A", 7); ("A", "B", -5); ("B", "A", 7)]).
  - repeat constructor; simpl;
      try apply is_word_A; try apply is_word_B; unfold INT_MIN, INT_MAX; lia.
  - simpl. auto.
Defined.

Lemma recorded_distance_is_a_path_length_witness :
  (8, "B") = unreached \/ ("C" = "A" /\ (8, "B") = (0, "")) \/
  exists L w, walk example_graph "A" "B" L /\ edge example_graph "B" "C" w /\
              8 = wrap (L + w).
Proof.
  apply (recorded_distance_is_a_path_length example_graph "A" "C" 10 example_paths "C").
  - apply (ok_closed _ example_graph_ok).
  - apply example_run.
  - reflexivity.
Defined.
